(** * PatchEngine: memory patches and speedhacks of the emulator core

    A shallow embedding of [Source/Core/Core/PatchEngine.cpp]: the loader of
    the [OnFrame] patch section, the speedhack table, the stack-sanity
    heuristic and the per-frame application of the patches; and of the game
    names of the NetPlay window, [BuildGameName], [FillWithGameNames] and
    [FindGame] of [Source/Core/DolphinWX/NetPlay/NetWindow.cpp].

    Conventions.
    - A [u32] is a [Z]; casts to narrower or signed types are written out.
    - [std::vector] is [list], [std::set<std::string>] is [gset string] and
      [std::map<u32, int>] is [gmap Z Z].
    - Routines of the code base that live outside this translation unit
      ([TryParse], [SplitString], the [IniFile] accessors, the [PowerPC]
      host accessors and the two code interpreters) are interfaces: a class
      or a record of operations, instantiated in the examples.
    - A value-returning C++ function whose control reaches the closing brace
      without a [return] yields no value; such a call is [None]. *)

From Stdlib Require Import ZArith Ascii String List DecimalString.
From stdpp Require Import base option gmap sets list strings.

Local Open Scope string_scope.
Local Open Scope list_scope.
Local Open Scope Z_scope.

(** ** Machine integers *)

Definition u32_range (v : Z) : Prop := 0 <= v < 2 ^ 32.

(** [(u8)value], [(u16)value] and the [u32] wrap-around of an addition. *)
Definition cast_u8 (v : Z) : Z := v mod 2 ^ 8.
Definition cast_u16 (v : Z) : Z := v mod 2 ^ 16.
Definition cast_u32 (v : Z) : Z := v mod 2 ^ 32.

(** [(int)cycles] for a [u32] [cycles]: the two's complement reading. *)
Definition cast_int (v : Z) : Z := if v <? 2 ^ 31 then v else v - 2 ^ 32.

(** ** Data model (PatchEngine.h) *)

(** [enum PatchType]; [PatchType_3] is the value [(PatchType)3] that the
    loader obtains when the type token is none of [PatchTypeStrings]. *)
Inductive PatchType : Type :=
  | PATCH_8BIT
  | PATCH_16BIT
  | PATCH_32BIT
  | PatchType_3.

#[global] Instance PatchType_eq_dec : EqDecision PatchType.
Proof. solve_decision. Defined.

Record PatchEntry : Type := mkPatchEntry {
  type : PatchType;
  address : Z;
  value : Z
}.

Record Patch : Type := mkPatch {
  name : string;
  entries : list PatchEntry;
  active : bool;
  user_defined : bool
}.

(** ** External collaborators *)

(** Common/StringUtil: [TryParse(str, &u32)] gives the parsed number or
    fails; [SplitString(str, delim)] gives the fields. *)
Class StringUtil : Type := {
  TryParse : string -> option Z;
  SplitString : string -> ascii -> list string
}.

(** Common/IniFile, as far as this file reads it. [Get section key dflt] is
    [GetOrCreateSection(section)->Get(key, &value, dflt)]. *)
Record IniFile : Type := mkIniFile {
  GetLines : string -> list string;
  GetKeys : string -> list string;
  Get : string -> string -> string -> string
}.

(** Core/ConfigManager: what [SConfig::GetInstance()] is asked for. *)
Record SConfig : Type := mkSConfig {
  bBrawlMusicOff : bool;
  LoadGameIni : IniFile;
  LoadDefaultGameIni : IniFile;
  LoadLocalGameIni : IniFile
}.

(** Core/PowerPC together with the two interpreters run at the end of a
    frame, over a state [M] of the emulated machine. *)
Class HostMachine (M : Type) : Type := {
  MSR_DR : M -> bool;
  MSR_IR : M -> bool;
  GPR1 : M -> Z;
  HostIsRAMAddress : M -> Z -> bool;
  HostIsInstructionRAMAddress : M -> Z -> bool;
  HostRead_U32 : M -> Z -> Z;
  HostWrite_U8 : Z -> Z -> M -> M;
  HostWrite_U16 : Z -> Z -> M -> M;
  HostWrite_U32 : Z -> Z -> M -> M;
  Gecko_RunCodeHandler : M -> M;
  ActionReplay_RunAllActive : M -> M
}.

(** ** LoadPatchSection *)

Definition PatchTypeStrings : list string := ["byte"; "word"; "dword"].

(** [std::find(first, last, item) - first]: the index of the first equal
    element, the length when there is none. *)
Fixpoint find_index (strs : list string) (item : string) : nat :=
  match strs with
  | [] => 0%nat
  | s :: strs' => if String.eqb s item then 0%nat else S (find_index strs' item)
  end.

(** The cast [PatchType(n)] for the indices [find_index] can give. *)
Definition PatchType_of_index (n : nat) : PatchType :=
  match n with
  | 0%nat => PATCH_8BIT
  | 1%nat => PATCH_16BIT
  | 2%nat => PATCH_32BIT
  | _ => PatchType_3
  end.

(** Lines 56-63: the names of the [$]-prefixed lines. *)
Definition enabledNames_insert (enabledNames : gset string) (line : string) : gset string :=
  match line with
  | EmptyString => enabledNames
  | String c rest =>
      if Ascii.eqb c "$" then {[ rest ]} ∪ enabledNames else enabledNames
  end.

Definition collect_enabledNames (enabledLines : list string) : gset string :=
  foldl enabledNames_insert ∅ enabledLines.

(** Lines 94-99: [loc = line.find('=')], then [line[loc] = ':'] when found. *)
Fixpoint replace_first_equals (line : string) : string :=
  match line with
  | EmptyString => EmptyString
  | String c rest =>
      if Ascii.eqb c "=" then String ":" rest
      else String c (replace_first_equals rest)
  end.

Section Loader.
Context `{StringUtil}.

(** Lines 101-117: the entry an entry line yields, if any. Both
    [TryParse] calls and the lookup of the type are always made;
    [success] is their conjunction. *)
Definition parse_entry_line (line : string) : option PatchEntry :=
  let items := SplitString (replace_first_equals line) ":" in
  match items with
  | item0 :: item1 :: item2 :: _ =>
      let pE_address := TryParse item0 in
      let pE_value := TryParse item2 in
      let pE_type := PatchType_of_index (find_index PatchTypeStrings item1) in
      match pE_address, pE_value with
      | Some a, Some v =>
          if decide (pE_type = PatchType_3) then None
          else Some (mkPatchEntry pE_type a v)
      | _, _ => None
      end
  | _ => None
  end.

(** One iteration of the loop over [lines] (lines 73-119), on the pair of
    the output vector [patches] and the accumulator [currentPatch]. *)
Definition LoadPatchSection_line (enabledNames : gset string) (is_local : bool)
    (st : list Patch * Patch) (line : string) : list Patch * Patch :=
  let '(patches, currentPatch) := st in
  match line with
  | EmptyString => st
  | String c rest =>
      if Ascii.eqb c "$" then
        let patches' :=
          if String.eqb (name currentPatch) "" then patches
          else patches ++ [currentPatch] in
        (patches',
         mkPatch rest [] (bool_decide (rest ∈ enabledNames)) is_local)
      else
        match parse_entry_line line with
        | Some pE =>
            (patches,
             mkPatch (name currentPatch) (entries currentPatch ++ [pE])
                     (active currentPatch) (user_defined currentPatch))
        | None => st
        end
  end.

(** The default-constructed accumulator. Its two flags are not
    initialised by the code; they are overwritten before any commit. *)
Definition empty_Patch : Patch := mkPatch "" [] false false.

(** Lines 121-124: the commit after the last line of a source. *)
Definition commit_last (st : list Patch * Patch) : list Patch :=
  let '(patches, currentPatch) := st in
  if negb (String.eqb (name currentPatch) "")
     && negb (Nat.eqb (length (entries currentPatch)) 0)
  then patches ++ [currentPatch]
  else patches.

(** The body of the loop over the two sources (lines 69-124). *)
Definition LoadPatchSection_ini (section : string) (enabledNames : gset string)
    (is_local : bool) (ini : IniFile) (patches : list Patch) : list Patch :=
  commit_last
    (foldl (LoadPatchSection_line enabledNames is_local)
           (patches, empty_Patch) (GetLines ini section)).

(** [patches] is passed by reference and appended to; the result is its
    final content. *)
Definition LoadPatchSection (section : string) (patches : list Patch)
    (globalIni localIni : IniFile) : list Patch :=
  let enabledSectionName := String.append section "_Enabled" in
  let enabledNames := collect_enabledNames (GetLines localIni enabledSectionName) in
  LoadPatchSection_ini section enabledNames true localIni
    (LoadPatchSection_ini section enabledNames false globalIni patches).

(** ** Speedhacks *)

(** The body of the loop over [keys] (lines 134-147). *)
Definition LoadSpeedhacks_key (section : string) (ini : IniFile)
    (speedHacks : gmap Z Z) (key : string) : gmap Z Z :=
  let value := Get ini section key "BOGUS" in
  if String.eqb value "BOGUS" then speedHacks
  else
    match TryParse key, TryParse value with
    | Some address, Some cycles => <[ address := cast_int cycles ]> speedHacks
    | _, _ => speedHacks
    end.

Definition LoadSpeedhacks (section : string) (ini : IniFile)
    (speedHacks : gmap Z Z) : gmap Z Z :=
  foldl (LoadSpeedhacks_key section ini) speedHacks (GetKeys ini section).

End Loader.

Definition GetSpeedhackCycles (speedHacks : gmap Z Z) (addr : Z) : Z :=
  match speedHacks !! addr with
  | None => 0
  | Some cycles => cycles
  end.

(** ** IsEnabledMusicCode, ApplyPatches *)

(** Lines 36-41. The only [return] is under the [if]; on the other path
    control reaches the end of the body and no value is returned. *)
Definition IsEnabledMusicCode (cfg : SConfig) (patch : Patch) : option bool :=
  if bBrawlMusicOff cfg && String.eqb (name patch) "[P+] Music Off"
  then Some true
  else None.

(** The guard [patch.active || IsEnabledMusicCode(patch)]: the right
    operand is evaluated only when the left one is false. *)
Definition patch_guard (cfg : SConfig) (patch : Patch) : option bool :=
  if active patch then Some true else IsEnabledMusicCode cfg patch.

Section Applier.
Context {M : Type} `{HostMachine M}.

(** The [switch] of lines 184-198 for one entry. *)
Definition apply_entry (m : M) (entry : PatchEntry) : M :=
  let addr := address entry in
  let value := value entry in
  match type entry with
  | PATCH_8BIT => HostWrite_U8 (cast_u8 value) addr m
  | PATCH_16BIT => HostWrite_U16 (cast_u16 value) addr m
  | PATCH_32BIT => HostWrite_U32 value addr m
  | PatchType_3 => m
  end.

Fixpoint ApplyPatches (cfg : SConfig) (patches : list Patch) (m : M) : option M :=
  match patches with
  | [] => Some m
  | patch :: patches' =>
      g ← patch_guard cfg patch;
      ApplyPatches cfg patches'
        (if g : bool then foldl apply_entry m (entries patch) else m)
  end.

(** ** IsStackSane *)

(** Lines 207-225. [next_SP + 4] is a [u32] sum. The [DEBUG_ASSERT] is
    compiled out of release builds and has no effect on the result. *)
Definition IsStackSane (m : M) : bool :=
  let SP := GPR1 m in
  if negb (HostIsRAMAddress m SP) then false
  else
    let next_SP := HostRead_U32 m SP in
    if (next_SP <=? SP)
       || negb (HostIsRAMAddress m next_SP)
       || negb (HostIsRAMAddress m (cast_u32 (next_SP + 4)))
    then false
    else
      let address' := HostRead_U32 m (cast_u32 (next_SP + 4)) in
      HostIsInstructionRAMAddress m address'
      && negb (HostRead_U32 m address' =? 0).

(** ** ApplyFramePatches *)

(** Lines 227-250; the result is the returned flag and the machine after
    the call. The debug log line is not modelled. *)
Definition ApplyFramePatches (cfg : SConfig) (onFrame : list Patch) (m : M)
    : option (bool * M) :=
  if negb (MSR_DR m) || negb (MSR_IR m) || negb (IsStackSane m)
  then Some (false, m)
  else
    m' ← ApplyPatches cfg onFrame m;
    Some (true, ActionReplay_RunAllActive (Gecko_RunCodeHandler m')).

End Applier.

(** ** Engine lifecycle *)

(** The two statics of the translation unit. The action-replay and Gecko
    subsystems called by [LoadPatches] and [Shutdown] keep their own state
    and cannot reach these. *)
Record Engine : Type := mkEngine {
  onFrame : list Patch;
  speedHacks : gmap Z Z
}.

(** Static initialisation: both containers are empty. *)
Definition Engine_initial : Engine := mkEngine [] ∅.

Section Lifecycle.
Context `{StringUtil}.

Definition LoadPatches (cfg : SConfig) (e : Engine) : Engine :=
  let merged := LoadGameIni cfg in
  let globalIni := LoadDefaultGameIni cfg in
  let localIni := LoadLocalGameIni cfg in
  mkEngine (LoadPatchSection "OnFrame" (onFrame e) globalIni localIni)
           (LoadSpeedhacks "Speedhacks" merged (speedHacks e)).

Definition Shutdown (e : Engine) : Engine := mkEngine [] ∅.

Definition Reload (cfg : SConfig) (e : Engine) : Engine :=
  LoadPatches cfg (Shutdown e).

End Lifecycle.

(** ** Fixtures for the examples

    Stand-ins for the external collaborators: a splitter on a delimiter, a
    parser of decimal [u32] numerals, ini sources given by association
    lists, and a machine that records the host writes it receives. *)
Module Fixture.

Fixpoint split_fields (delim : ascii) (s : string) : list string :=
  match s with
  | EmptyString => [EmptyString]
  | String c rest =>
      if Ascii.eqb c delim then EmptyString :: split_fields delim rest
      else match split_fields delim rest with
           | f :: fs => String c f :: fs
           | [] => [String c EmptyString]
           end
  end.

Definition digit_of (c : ascii) : option Z :=
  let n := Z.of_nat (nat_of_ascii c) in
  if (48 <=? n) && (n <=? 57) then Some (n - 48) else None.

Fixpoint parse_digits (acc : Z) (s : string) : option Z :=
  match s with
  | EmptyString => Some acc
  | String c rest => d ← digit_of c; parse_digits (10 * acc + d) rest
  end.

Definition parse_decimal (s : string) : option Z :=
  match s with
  | EmptyString => None
  | _ => v ← parse_digits 0 s; if v <? 2 ^ 32 then Some v else None
  end.

#[export] Instance decimal_StringUtil : StringUtil :=
  {| TryParse := parse_decimal; SplitString := fun s d => split_fields d s |}.

Fixpoint assoc {A : Type} (dflt : A) (k : string) (l : list (string * A)) : A :=
  match l with
  | [] => dflt
  | (k', v) :: l' => if String.eqb k' k then v else assoc dflt k l'
  end.

(** An ini source from the lines and the key/value pairs of its sections. *)
Definition ini_of (lines : list (string * list string))
    (values : list (string * list (string * string))) : IniFile :=
  {| GetLines := fun section => assoc [] section lines;
     GetKeys := fun section => map fst (assoc [] section values);
     Get := fun section key dflt => assoc dflt key (assoc [] section values) |}.

Inductive HostCall : Type :=
  | Write_U8 (v a : Z)
  | Write_U16 (v a : Z)
  | Write_U32 (v a : Z)
  | RunCodeHandler
  | RunAllActive.

Record Machine : Type := mkMachine {
  dr : bool;
  ir : bool;
  gpr1 : Z;
  is_ram : Z -> bool;
  is_iram : Z -> bool;
  read32 : Z -> Z;
  calls : list HostCall
}.

Definition record (c : HostCall) (m : Machine) : Machine :=
  mkMachine (dr m) (ir m) (gpr1 m) (is_ram m) (is_iram m) (read32 m)
            (calls m ++ [c]).

#[export] Instance recording_HostMachine : HostMachine Machine :=
  {| MSR_DR := dr; MSR_IR := ir; GPR1 := gpr1;
     HostIsRAMAddress := is_ram;
     HostIsInstructionRAMAddress := is_iram;
     HostRead_U32 := read32;
     HostWrite_U8 := fun v a => record (Write_U8 v a);
     HostWrite_U16 := fun v a => record (Write_U16 v a);
     HostWrite_U32 := fun v a => record (Write_U32 v a);
     Gecko_RunCodeHandler := record RunCodeHandler;
     ActionReplay_RunAllActive := record RunAllActive |}.

(** Two frames in RAM [0x80000000, 0x81800000): [SP = 0x80001000] links to
    the frame at [0x80001010], whose saved return address [0x80003100]
    holds a non-zero instruction word. *)
Definition in_ram (a : Z) : bool := (0x80000000 <=? a) && (a <? 0x81800000).

Definition sane_read32 (a : Z) : Z :=
  if a =? 0x80001000 then 0x80001010
  else if a =? 0x80001014 then 0x80003100
  else if a =? 0x80003100 then 0x4C000000
  else 0.

Definition sane_machine : Machine :=
  mkMachine true true 0x80001000 in_ram in_ram sane_read32 [].

(** What a call of [ApplyFramePatches] is observed to do: the flag it
    returns and the host calls recorded so far. *)
Definition outcome (r : option (bool * Machine)) : option (bool * list HostCall) :=
  match r with
  | Some (flag, m) => Some (flag, calls m)
  | None => None
  end.

(** The same machine caught with data translation switched off. *)
Definition real_mode_machine : Machine :=
  mkMachine false true 0x80001000 in_ram in_ram sane_read32 [].

Definition no_ini : IniFile := ini_of [] [].

(** Two layered sources: the shipped defaults and the user's overrides. *)
Definition default_ini : IniFile :=
  ini_of [("OnFrame", ["$Widescreen"; "2147488308:dword:1"; "2147488312:byte:511";
                       "$Music"; "2147488320:word:65537"])] [].

Definition user_ini : IniFile :=
  ini_of [("OnFrame", ["$Music"; "2147488324=byte:7"]);
          ("OnFrame_Enabled", ["$Music"; "Widescreen"])]
         [("Speedhacks", [("16", "5"); ("x", "3"); ("016", "7");
                          ("32", "4294967295"); ("48", "y")])].

(** What [LoadPatchSection] makes of the two sources. *)
Definition widescreen_patch : Patch :=
  mkPatch "Widescreen"
    [mkPatchEntry PATCH_32BIT 0x80001234 1; mkPatchEntry PATCH_8BIT 0x80001238 511]
    false false.

Definition loaded_patches : list Patch :=
  [ widescreen_patch;
    mkPatch "Music" [mkPatchEntry PATCH_16BIT 0x80001240 65537] true false;
    mkPatch "Music" [mkPatchEntry PATCH_8BIT 0x80001244 7] true true ].

(** A configuration with the music-off option set, its patch, and a
    collection in which every patch is applied. *)
Definition music_off_cfg : SConfig := mkSConfig true user_ini default_ini user_ini.

Definition music_off_patch : Patch :=
  mkPatch "[P+] Music Off" [mkPatchEntry PATCH_8BIT 0x80001234 511] false true.

Definition all_applied_patches : list Patch :=
  [ mkPatch "T" [mkPatchEntry PATCH_32BIT 0x80001234 0] true false;
    music_off_patch;
    mkPatch "Music" [mkPatchEntry PATCH_16BIT 0x80001240 65537;
                     mkPatchEntry PATCH_8BIT 0x80001244 7] true true ].

(** An override source that enables every patch of [default_ini] and of
    itself, and the configuration made of the two. *)
Definition enabling_ini : IniFile :=
  ini_of [("OnFrame", ["3:byte:1"; "$Music"; ""; "2147488324=byte:7"; "bad line"]);
          ("OnFrame_Enabled", ["$Music"; "$Widescreen"])]
         [("Speedhacks", [("16", "5"); ("016", "7")])].

Definition enabling_cfg : SConfig := mkSConfig false enabling_ini default_ini enabling_ini.

Definition enabled_patches : list Patch :=
  [ mkPatch "Widescreen"
      [mkPatchEntry PATCH_32BIT 0x80001234 1; mkPatchEntry PATCH_8BIT 0x80001238 511]
      true false;
    mkPatch "Music" [mkPatchEntry PATCH_16BIT 0x80001240 65537] true false;
    mkPatch "Music" [mkPatchEntry PATCH_8BIT 0x80001244 7] true true ].

End Fixture.

(** ** Reference definitions for the statements

    What the properties below compare the code with: the reading of an
    entry line field by field, and the list of host writes a patch
    collection stands for. *)

(** The type a token names; the comparison is case-sensitive. *)
Definition token_type (tok : string) : option PatchType :=
  if String.eqb tok "byte" then Some PATCH_8BIT
  else if String.eqb tok "word" then Some PATCH_16BIT
  else if String.eqb tok "dword" then Some PATCH_32BIT
  else None.

(** [line] has at least three fields, of which the first and the third
    parse to the address and the value of [pE] and the second is the token
    of its type. *)
Definition entry_line_fields `{StringUtil} (line : string) (pE : PatchEntry) : Prop :=
  exists item0 item1 item2 more,
    SplitString (replace_first_equals line) ":" = item0 :: item1 :: item2 :: more /\
    TryParse item0 = Some (address pE) /\
    TryParse item2 = Some (value pE) /\
    token_type item1 = Some (type pE).

(** [currentPatch.entries.push_back(pE)]. *)
Definition push_entry (patch : Patch) (pE : PatchEntry) : Patch :=
  mkPatch (name patch) (entries patch ++ [pE]) (active patch) (user_defined patch).

(** The flag of a patch agrees with the enabled names. *)
Definition flag_from (enabledNames : gset string) (p : Patch) : Prop :=
  active p = bool_decide (name p ∈ enabledNames).

(** Invariant of the loop over the lines: every committed patch carries the
    right flag, and so does the accumulator once it has a name. *)
Definition flags_ok (enabledNames : gset string) (st : list Patch * Patch) : Prop :=
  Forall (flag_from enabledNames) (fst st)
  /\ (name (snd st) <> "" -> flag_from enabledNames (snd st)).

(** A host write: its width in bits, the data and the target address. *)
Record HostWrite : Type := mkHostWrite {
  width : Z;
  data : Z;
  target : Z
}.

Definition width_of (t : PatchType) : option Z :=
  match t with
  | PATCH_8BIT => Some 8
  | PATCH_16BIT => Some 16
  | PATCH_32BIT => Some 32
  | PatchType_3 => None
  end.

(** The write an entry declares: its value truncated to its width, at its
    address. *)
Definition entry_write (e : PatchEntry) : option HostWrite :=
  w ← width_of (type e);
  Some (mkHostWrite w (value e mod 2 ^ w) (address e)).

(** The writes of a collection, patch after patch and entry after entry. *)
Definition patch_writes (patches : list Patch) : list HostWrite :=
  p ← patches; omap entry_write (entries p).

(** The built-in override: the music-off patch while the option is set. *)
Definition music_off_override (cfg : SConfig) (p : Patch) : bool :=
  bBrawlMusicOff cfg && String.eqb (name p) "[P+] Music Off".

(** The patches whose entries are to be written. *)
Definition applied (cfg : SConfig) (p : Patch) : bool :=
  active p || music_off_override cfg p.

(** Issuing a write on a machine. *)
Definition issue {M : Type} `{HostMachine M} (m : M) (w : HostWrite) : M :=
  if width w =? 8 then HostWrite_U8 (data w) (target w) m
  else if width w =? 16 then HostWrite_U16 (data w) (target w) m
  else HostWrite_U32 (data w) (target w) m.

(** The machine [ApplyFramePatches] leaves when it has issued [writes] and
    run the two interpreters. *)
Definition after_frame {M : Type} `{HostMachine M} (m : M) (writes : list HostWrite) : M :=
  ActionReplay_RunAllActive (Gecko_RunCodeHandler (foldl issue m writes)).

(** ** Patch sections read as blocks

    A declarative reading of a section, against which the single pass of
    the loader is compared: the lines split at the marker lines into
    blocks, each block giving one patch. *)

(** The name a marker line introduces. *)
Definition marker_name (line : string) : option string :=
  match line with
  | EmptyString => None
  | String c rest => if Ascii.eqb c "$" then Some rest else None
  end.

(** The entry a line of a block stands for: none for an empty line or a
    marker line, else what the fields of the line parse to. *)
Definition entry_of_line `{StringUtil} (line : string) : option PatchEntry :=
  match line with
  | EmptyString => None
  | String c _ => if Ascii.eqb c "$" then None else parse_entry_line line
  end.

Definition block_entries `{StringUtil} (body : list string) : list PatchEntry :=
  omap entry_of_line body.

(** The lines before the first marker, and the blocks: each marker name
    with the lines up to the next marker. *)
Fixpoint split_blocks (lines : list string)
    : list string * list (string * list string) :=
  match lines with
  | [] => ([], [])
  | line :: lines' =>
      let '(head, blocks) := split_blocks lines' in
      match marker_name line with
      | Some n => ([], (n, head) :: blocks)
      | None => (line :: head, blocks)
      end
  end.

Definition block_patch `{StringUtil} (enabledNames : gset string) (is_local : bool)
    (b : string * list string) : Patch :=
  mkPatch (fst b) (block_entries (snd b))
          (bool_decide (fst b ∈ enabledNames)) is_local.

(** The patches the blocks of one source give: a block followed by another
    needs a name, the last block needs a name and an entry. *)
Fixpoint committed_blocks `{StringUtil} (enabledNames : gset string) (is_local : bool)
    (blocks : list (string * list string)) : list Patch :=
  match blocks with
  | [] => []
  | b :: blocks' =>
      let p := block_patch enabledNames is_local b in
      match blocks' with
      | [] =>
          if negb (String.eqb (name p) "") && negb (Nat.eqb (length (entries p)) 0)
          then [p] else []
      | _ :: _ =>
          (if String.eqb (name p) "" then [] else [p])
          ++ committed_blocks enabledNames is_local blocks'
      end
  end.

(** [patch] with [es] appended to its entries. *)
Definition extend_entries (patch : Patch) (es : list PatchEntry) : Patch :=
  mkPatch (name patch) (entries patch ++ es) (active patch) (user_defined patch).

(** [TryParse] writes a [u32]. *)
Definition TryParse_u32 `{StringUtil} : Prop :=
  forall (s : string) (v : Z), TryParse s = Some v -> u32_range v.

(** A key contributes an entry when its value is present and both its name
    and its value parse. *)
Definition key_configures `{StringUtil} (section : string) (ini : IniFile) (key : string)
    (addr cycles : Z) : Prop :=
  Get ini section key "BOGUS" <> "BOGUS"
  /\ TryParse key = Some addr
  /\ TryParse (Get ini section key "BOGUS") = Some cycles.

(** ** NetPlay window: the names of the games (NetWindow.cpp) *)

(** What [BuildGameName] and [FindGame] read of a [GameListItem]:
    [GetName_lang] is [GetName(DiscIO::Language::LANGUAGE_ENGLISH)] and
    [GetName] the overload without argument. *)
Record GameListItem : Type := mkGameListItem {
  GetUniqueID : string;
  GetRevision : Z;
  GetName_lang : string;
  GetName : string;
  GetDiscNumber : Z;
  GetFileName : string
}.

(** The C library as this file uses it: [std::to_string] and the [%i] of
    [wxString::Format] print an integer, [::tolower] maps a character. *)
Class CLibrary : Type := {
  to_string : Z -> string;
  tolower : ascii -> ascii
}.

(** [std::transform(s.begin(), s.end(), s.begin(), f)]. *)
Fixpoint string_transform (f : ascii -> ascii) (s : string) : string :=
  match s with
  | EmptyString => EmptyString
  | String c rest => String (f c) (string_transform f rest)
  end.

(** [hay.find(needle) == std::string::npos]. *)
Definition find_is_npos (hay needle : string) : bool :=
  match String.index 0 needle hay with
  | Some _ => false
  | None => true
  end.

Section GameNames.
Context `{CLibrary}.

(** The [info] vector of [BuildGameName] (lines 63-87), given the name. *)
Definition BuildGameName_info (game : GameListItem) (name : string) : list string :=
  let info := if String.eqb (GetUniqueID game) "" then [] else [GetUniqueID game] in
  let info :=
    if GetRevision game =? 0 then info
    else info ++ [String.append "Revision " (to_string (GetRevision game))] in
  let disc_number := GetDiscNumber game + 1 in
  let lower_name := string_transform tolower name in
  if (1 <? disc_number)
     && find_is_npos lower_name (String.append "disc " (to_string disc_number))
     && find_is_npos lower_name (String.append "disc" (to_string disc_number))
  then info ++ [String.append "Disc " (to_string disc_number)]
  else info.

(** The English name, or the default one when that is empty. *)
Definition BuildGameName_name (game : GameListItem) : string :=
  if String.eqb (GetName_lang game) "" then GetName game else GetName_lang game.

Definition BuildGameName (game : GameListItem) : string :=
  let name := BuildGameName_name game in
  let info := BuildGameName_info game name in
  match info with
  | [] => name
  | _ :: _ =>
      String.append name
        (String.append " (" (String.append (String.concat ", " info) ")"))
  end.

(** [FillWithGameNames]: the items appended to the list box, the game list
    being walked with [GetISO(i)] until it gives no game. *)
Definition FillWithGameNames (game_lbox : list string) (game_list : list GameListItem)
    : list string :=
  foldl (fun lbox game => lbox ++ [BuildGameName game]) game_lbox game_list.

(** [FindGame]: the file of the first game of the list with that name. *)
Fixpoint FindGame (game_list : list GameListItem) (target_game : string) : string :=
  match game_list with
  | [] => ""
  | game :: games =>
      if String.eqb target_game (BuildGameName game) then GetFileName game
      else FindGame games target_game
  end.

End GameNames.

(** Games for the examples, with decimal printing and ASCII lower case. *)
Module GameFixture.

Definition ascii_tolower (c : ascii) : ascii :=
  let n := nat_of_ascii c in
  if (Nat.leb 65 n && Nat.leb n 90)%bool then ascii_of_nat (n + 32) else c.

#[export] Instance decimal_CLibrary : CLibrary :=
  {| to_string := fun z => NilZero.string_of_int (Z.to_int z);
     tolower := ascii_tolower |}.

Definition brawl : GameListItem :=
  mkGameListItem "RSBE01" 2 "Super Smash Bros. Brawl" "" 0 "/games/brawl.iso".

Definition homebrew : GameListItem :=
  mkGameListItem "" 0 "" "Homebrew" 0 "/games/homebrew.dol".

Definition second_disc : GameListItem :=
  mkGameListItem "GM8E01" 0 "Metroid Disc 2" "" 1 "/games/metroid2.iso".

Definition brawl_copy : GameListItem :=
  mkGameListItem "RSBE01" 2 "Super Smash Bros. Brawl" "" 0 "/backup/brawl.iso".

Definition games : list GameListItem := [brawl; homebrew; second_disc; brawl_copy].

End GameFixture.

(** * Properties *)

(** ** ApplyFramePatches asks for a retry and leaves the machine alone *)

Section FrameRetry.
Context {M : Type} `{HostMachine M}.

(** C2: with data translation off, or instruction translation off, or a
    stack that is not sane, [ApplyFramePatches] returns [false] and the
    machine after the call is the machine before it: no host write was
    issued. *)
Theorem ApplyFramePatches_retry (cfg : SConfig) (onFrame : list Patch) (m : M) :
  MSR_DR m = false \/ MSR_IR m = false \/ IsStackSane m = false ->
  ApplyFramePatches cfg onFrame m = Some (false, m).
Proof.
  intros Hpre. unfold ApplyFramePatches.
  destruct Hpre as [-> | [-> | ->]]; simpl.
  - reflexivity.
  - rewrite orb_true_r. reflexivity.
  - rewrite orb_true_r. reflexivity.
Qed.

(** C4: the stack-sanity heuristic, case by case. With [SP] the stack
    pointer, [next_SP] the word read at [SP] and [retaddr] the word read
    at the [u32] sum [next_SP + 4]: the result is [false] when [SP] is not
    a RAM address; it is [false] when [next_SP <= SP] or one of [next_SP],
    [next_SP + 4] is not a RAM address; otherwise it is [true] exactly
    when [retaddr] is an instruction RAM address and the word stored at
    [retaddr] is not zero. *)
Theorem IsStackSane_cases (m : M) :
  let SP := GPR1 m in
  let next_SP := HostRead_U32 m SP in
  let retaddr := HostRead_U32 m (cast_u32 (next_SP + 4)) in
  (HostIsRAMAddress m SP = false -> IsStackSane m = false) /\
  (HostIsRAMAddress m SP = true ->
   next_SP <= SP \/ HostIsRAMAddress m next_SP = false
     \/ HostIsRAMAddress m (cast_u32 (next_SP + 4)) = false ->
   IsStackSane m = false) /\
  (HostIsRAMAddress m SP = true ->
   ~ (next_SP <= SP \/ HostIsRAMAddress m next_SP = false
        \/ HostIsRAMAddress m (cast_u32 (next_SP + 4)) = false) ->
   (IsStackSane m = true <->
    HostIsInstructionRAMAddress m retaddr = true /\ HostRead_U32 m retaddr <> 0)).
Proof.
  intros SP next_SP retaddr. unfold IsStackSane.
  fold SP. fold next_SP. fold retaddr.
  split; [| split].
  - intros ->. reflexivity.
  - intros -> Hbad. simpl.
    destruct Hbad as [Hle | [-> | ->]]; simpl.
    + apply Z.leb_le in Hle. rewrite Hle. reflexivity.
    + rewrite orb_true_r. reflexivity.
    + rewrite orb_true_r. reflexivity.
  - intros -> Hgood. simpl.
    destruct (Z.leb_spec next_SP SP) as [Hle | Hlt]; [tauto |].
    destruct (HostIsRAMAddress m next_SP) eqn:E1; [| tauto].
    destruct (HostIsRAMAddress m (cast_u32 (next_SP + 4))) eqn:E2; [| tauto].
    simpl. rewrite andb_true_iff, negb_true_iff, Z.eqb_neq. reflexivity.
Qed.

End FrameRetry.

(** ** The patch section loader *)

Section LoaderProperties.
Context `{StringUtil}.

Lemma token_type_find_index (tok : string) (t : PatchType) :
  token_type tok = Some t <->
  PatchType_of_index (find_index PatchTypeStrings tok) = t /\ t <> PatchType_3.
Proof.
  unfold token_type, PatchTypeStrings. cbn [find_index].
  rewrite (String.eqb_sym "byte" tok), (String.eqb_sym "word" tok),
    (String.eqb_sym "dword" tok).
  destruct (String.eqb tok "byte"); simpl.
  { split; [intros [= <-]; split; [reflexivity | discriminate]
           | intros [<- _]; reflexivity]. }
  destruct (String.eqb tok "word"); simpl.
  { split; [intros [= <-]; split; [reflexivity | discriminate]
           | intros [<- _]; reflexivity]. }
  destruct (String.eqb tok "dword"); simpl.
  { split; [intros [= <-]; split; [reflexivity | discriminate]
           | intros [<- _]; reflexivity]. }
  split; [discriminate | intros [<- Hne]; congruence].
Qed.

(** [parse_entry_line] yields exactly the entries the fields describe. *)
Lemma parse_entry_line_fields (line : string) (pE : PatchEntry) :
  parse_entry_line line = Some pE <-> entry_line_fields line pE.
Proof.
  unfold parse_entry_line, entry_line_fields.
  destruct (SplitString (replace_first_equals line) ":")
    as [| item0 [| item1 [| item2 more]]].
  1-3: split; [discriminate | intros (? & ? & ? & ? & [=] & _)].
  split.
  - intros Hparse. exists item0, item1, item2, more.
    destruct (TryParse item0) as [a |]; [| discriminate].
    destruct (TryParse item2) as [v |]; [| discriminate].
    destruct (decide _) as [| Hne]; [discriminate |].
    injection Hparse as <-. simpl.
    repeat split. apply token_type_find_index. split; [reflexivity | exact Hne].
  - intros (i0 & i1 & i2 & more' & [= <- <- <- <-] & Ha & Hv & Ht).
    rewrite Ha, Hv. apply token_type_find_index in Ht as [Ht Hne].
    rewrite Ht. destruct (decide _) as [| _]; [contradiction |].
    destruct pE; reflexivity.
Qed.

(** C5: on a line that is not empty and does not start with [$], the
    loader either appends one entry to the current patch, and then the
    line has at least three fields, the first and third of which parse to
    the entry's address and value and the second of which is one of
    [byte], [word], [dword]; or the line has no such reading and the
    loader state is left as it was. The step is a total function: there
    is no failure to report. *)
Theorem entry_line_appended_or_dropped (enabledNames : gset string)
    (is_local : bool) (patches : list Patch) (currentPatch : Patch)
    (c : ascii) (rest : string) :
  c <> "$"%char ->
  let line := String c rest in
  let st' := LoadPatchSection_line enabledNames is_local (patches, currentPatch) line in
  (exists pE, entry_line_fields line pE /\
              st' = (patches, push_entry currentPatch pE))
  \/ ((forall pE, ~ entry_line_fields line pE) /\ st' = (patches, currentPatch)).
Proof.
  intros Hc line st'. subst st'. unfold LoadPatchSection_line. subst line.
  cbv beta iota. apply Ascii.eqb_neq in Hc. rewrite Hc.
  destruct (parse_entry_line (String c rest)) as [pE |] eqn:Hparse.
  - left. exists pE. split; [| reflexivity].
    apply parse_entry_line_fields. exact Hparse.
  - right. split; [| reflexivity].
    intros pE Hfields. apply parse_entry_line_fields in Hfields. congruence.
Qed.

(** *** The output vector is only appended to *)

Lemma LoadPatchSection_line_app (enabledNames : gset string) (is_local : bool)
    (old patches : list Patch) (currentPatch : Patch) (line : string) :
  LoadPatchSection_line enabledNames is_local (old ++ patches, currentPatch) line
  = (old ++ fst (LoadPatchSection_line enabledNames is_local (patches, currentPatch) line),
     snd (LoadPatchSection_line enabledNames is_local (patches, currentPatch) line)).
Proof.
  unfold LoadPatchSection_line. destruct line as [| c rest]; [reflexivity |].
  destruct (Ascii.eqb c "$").
  - destruct (String.eqb (name currentPatch) ""); simpl;
      [reflexivity | rewrite app_assoc; reflexivity].
  - destruct (parse_entry_line (String c rest)); reflexivity.
Qed.

Lemma LoadPatchSection_lines_app (enabledNames : gset string) (is_local : bool)
    (old : list Patch) (lines : list string) :
  forall (patches : list Patch) (currentPatch : Patch),
    foldl (LoadPatchSection_line enabledNames is_local) (old ++ patches, currentPatch) lines
    = (old ++ fst (foldl (LoadPatchSection_line enabledNames is_local)
                         (patches, currentPatch) lines),
       snd (foldl (LoadPatchSection_line enabledNames is_local)
                  (patches, currentPatch) lines)).
Proof.
  induction lines as [| line lines IH]; intros patches currentPatch; [reflexivity |].
  cbn [foldl]. rewrite LoadPatchSection_line_app.
  destruct (LoadPatchSection_line enabledNames is_local (patches, currentPatch) line)
    as [patches1 current1].
  apply IH.
Qed.

Lemma LoadPatchSection_ini_app (section : string) (enabledNames : gset string)
    (is_local : bool) (ini : IniFile) (old : list Patch) :
  LoadPatchSection_ini section enabledNames is_local ini old
  = old ++ LoadPatchSection_ini section enabledNames is_local ini [].
Proof.
  unfold LoadPatchSection_ini.
  rewrite <- (app_nil_r old) at 1. rewrite LoadPatchSection_lines_app.
  destruct (foldl _ ([], empty_Patch) _) as [patches1 current1].
  unfold commit_last. cbn [fst snd].
  destruct (_ && _); [rewrite app_assoc |]; reflexivity.
Qed.

(** The patches a call appends do not depend on what [patches] held. *)
Lemma LoadPatchSection_app (section : string) (old : list Patch)
    (globalIni localIni : IniFile) :
  LoadPatchSection section old globalIni localIni
  = old ++ LoadPatchSection section [] globalIni localIni.
Proof.
  unfold LoadPatchSection.
  rewrite (LoadPatchSection_ini_app _ _ true).
  rewrite (LoadPatchSection_ini_app _ _ false _ old).
  rewrite (LoadPatchSection_ini_app _ _ true _ (LoadPatchSection_ini _ _ false _ [])).
  rewrite app_assoc. reflexivity.
Qed.

(** *** The active flag *)

Lemma collect_enabledNames_from (enabledLines : list string) (n : string) :
  forall acc : gset string,
    n ∈ foldl enabledNames_insert acc enabledLines
    <-> n ∈ acc \/ String "$" n ∈ enabledLines.
Proof.
  induction enabledLines as [| line enabledLines IH]; intros acc; cbn [foldl].
  - rewrite elem_of_nil. tauto.
  - rewrite IH, elem_of_cons. unfold enabledNames_insert.
    destruct line as [| c rest].
    + split; [intros [? | ?]; auto | intros [? | [[=] | ?]]; auto].
    + destruct (Ascii.eqb_spec c "$") as [-> | Hc].
      * rewrite elem_of_union, elem_of_singleton.
        split; [intros [[-> | ?] | ?]; auto | intros [? | [[= ->] | ?]]; auto].
      * split; [intros [? | ?]; auto | intros [? | [[= ? ?] | ?]]; auto].
        congruence.
Qed.

Lemma elem_of_collect_enabledNames (enabledLines : list string) (n : string) :
  n ∈ collect_enabledNames enabledLines <-> String "$" n ∈ enabledLines.
Proof.
  unfold collect_enabledNames. rewrite collect_enabledNames_from.
  rewrite elem_of_empty. tauto.
Qed.

Lemma LoadPatchSection_line_flags (enabledNames : gset string) (is_local : bool)
    (st : list Patch * Patch) (line : string) :
  flags_ok enabledNames st ->
  flags_ok enabledNames (LoadPatchSection_line enabledNames is_local st line).
Proof.
  destruct st as [patches currentPatch]. intros [Hps Hcur]. cbn [fst snd] in *.
  unfold LoadPatchSection_line. destruct line as [| c rest]; [split; assumption |].
  destruct (Ascii.eqb c "$").
  - split; cbn [fst snd].
    + destruct (String.eqb_spec (name currentPatch) "") as [_ | Hname]; [exact Hps |].
      apply Forall_app. split; [exact Hps |].
      apply Forall_cons. split; [auto | apply Forall_nil; exact I].
    + intros _. reflexivity.
  - destruct (parse_entry_line (String c rest)); split; cbn [fst snd]; assumption.
Qed.

Lemma LoadPatchSection_ini_flags (section : string) (enabledNames : gset string)
    (is_local : bool) (ini : IniFile) (patches : list Patch) :
  Forall (flag_from enabledNames) patches ->
  Forall (flag_from enabledNames)
    (LoadPatchSection_ini section enabledNames is_local ini patches).
Proof.
  intros Hps. unfold LoadPatchSection_ini.
  assert (Hinv : flags_ok enabledNames
                   (foldl (LoadPatchSection_line enabledNames is_local)
                          (patches, empty_Patch) (GetLines ini section))).
  { generalize (GetLines ini section) as lines.
    assert (H0 : flags_ok enabledNames (patches, empty_Patch)).
    { split; [exact Hps | intros Hne; exfalso; apply Hne; reflexivity]. }
    revert H0. generalize (patches, empty_Patch) as st.
    intros st H0 lines. revert st H0.
    induction lines as [| line lines IH]; intros st H0; [exact H0 |].
    cbn [foldl]. apply IH. apply LoadPatchSection_line_flags. exact H0. }
  destruct (foldl _ _ _) as [patches1 current1].
  destruct Hinv as [H1 H2]. cbn [fst snd] in *. unfold commit_last.
  destruct (String.eqb_spec (name current1) "") as [_ | Hname]; cbn [negb andb];
    [exact H1 |].
  destruct (Nat.eqb _ _); cbn [negb]; [exact H1 |].
  apply Forall_app. split; [exact H1 |].
  apply Forall_cons. split; [auto | apply Forall_nil; exact I].
Qed.

(** C6: every patch that a call of [LoadPatchSection] appends, whichever
    of the two sources it comes from, has its [active] flag set exactly
    when [$] followed by its name is a line of the override source's
    [<section>_Enabled] section; two appended patches of the same name
    have the same flag. *)
Theorem active_iff_enabled (section : string) (patches loaded : list Patch)
    (globalIni localIni : IniFile) :
  LoadPatchSection section patches globalIni localIni = patches ++ loaded ->
  forall p : Patch, p ∈ loaded ->
    (active p = true
     <-> String "$" (name p) ∈ GetLines localIni (String.append section "_Enabled"))
    /\ (forall q : Patch, q ∈ loaded -> name q = name p -> active q = active p).
Proof.
  rewrite LoadPatchSection_app. intros Heq%app_inv_head. subst loaded.
  set (enabledNames :=
         collect_enabledNames (GetLines localIni (String.append section "_Enabled"))).
  assert (Hall : Forall (flag_from enabledNames)
                   (LoadPatchSection section [] globalIni localIni)).
  { unfold LoadPatchSection. fold enabledNames.
    do 2 apply LoadPatchSection_ini_flags. apply Forall_nil. exact I. }
  rewrite Forall_forall in Hall.
  intros p Hp. split.
  - rewrite (Hall p Hp), bool_decide_eq_true.
    apply elem_of_collect_enabledNames.
  - intros q Hq Hname. rewrite (Hall p Hp), (Hall q Hq), Hname. reflexivity.
Qed.

End LoaderProperties.

(** ** The speedhack table *)

Section SpeedhackProperties.
Context `{StringUtil}.

(** A key that does not parse to [addr] leaves the slot of [addr] alone. *)
Lemma LoadSpeedhacks_key_other (section : string) (ini : IniFile)
    (speedHacks : gmap Z Z) (key : string) (addr : Z) :
  TryParse key <> Some addr ->
  LoadSpeedhacks_key section ini speedHacks key !! addr = speedHacks !! addr.
Proof.
  intros Hkey. unfold LoadSpeedhacks_key.
  destruct (String.eqb _ "BOGUS"); [reflexivity |].
  destruct (TryParse key) as [a |]; [| reflexivity].
  destruct (TryParse (Get ini section key "BOGUS")) as [c |]; [| reflexivity].
  apply lookup_insert_ne. congruence.
Qed.

Lemma LoadSpeedhacks_keys_other (section : string) (ini : IniFile)
    (keys : list string) (addr : Z) :
  (forall k, k ∈ keys -> TryParse k <> Some addr) ->
  forall speedHacks : gmap Z Z,
    foldl (LoadSpeedhacks_key section ini) speedHacks keys !! addr
    = speedHacks !! addr.
Proof.
  induction keys as [| k keys IH]; intros Hkeys speedHacks; [reflexivity |].
  cbn [foldl]. rewrite IH.
  - apply LoadSpeedhacks_key_other. apply Hkeys. apply elem_of_cons. left. reflexivity.
  - intros k' Hk'. apply Hkeys. apply elem_of_cons. right. exact Hk'.
Qed.

(** A key whose name and value both parse stores the value, cast to
    [int], under its address. *)
Lemma LoadSpeedhacks_key_parsed (section : string) (ini : IniFile)
    (speedHacks : gmap Z Z) (key : string) (addr cycles : Z) :
  Get ini section key "BOGUS" <> "BOGUS" ->
  TryParse key = Some addr ->
  TryParse (Get ini section key "BOGUS") = Some cycles ->
  LoadSpeedhacks_key section ini speedHacks key
  = <[ addr := cast_int cycles ]> speedHacks.
Proof.
  intros Hbogus Hkey Hvalue. unfold LoadSpeedhacks_key.
  apply String.eqb_neq in Hbogus. rewrite Hbogus, Hkey, Hvalue. reflexivity.
Qed.

(** The last key that parses to an address decides its slot. *)
Lemma LoadSpeedhacks_last_key (section : string) (ini : IniFile)
    (speedHacks : gmap Z Z) (before after : list string) (key : string)
    (addr cycles : Z) :
  GetKeys ini section = before ++ key :: after ->
  Get ini section key "BOGUS" <> "BOGUS" ->
  TryParse key = Some addr ->
  TryParse (Get ini section key "BOGUS") = Some cycles ->
  (forall k, k ∈ after -> TryParse k <> Some addr) ->
  LoadSpeedhacks section ini speedHacks !! addr = Some (cast_int cycles).
Proof.
  intros Hkeys Hbogus Hkey Hvalue Hafter. unfold LoadSpeedhacks.
  rewrite Hkeys, foldl_app. cbn [foldl].
  rewrite LoadSpeedhacks_keys_other by exact Hafter.
  rewrite (LoadSpeedhacks_key_parsed _ _ _ _ addr cycles) by assumption.
  apply lookup_insert_eq.
Qed.

(** C7: [GetSpeedhackCycles] is [0] at an address the table does not
    hold; when two scanned keys parse to the same address and the value
    of the later one parses, the table holds that later value (cast to
    [int]) at the address, provided no key scanned after it parses to the
    address again; and a key whose name or value does not parse leaves
    the table as it was. *)
Theorem speedhack_table_contents (section : string) (ini : IniFile)
    (speedHacks : gmap Z Z) :
  (forall addr : Z,
      speedHacks !! addr = None -> GetSpeedhackCycles speedHacks addr = 0)
  /\ (forall (l1 l2 l3 : list string) (k1 k2 : string) (addr cycles2 : Z),
        GetKeys ini section = l1 ++ k1 :: l2 ++ k2 :: l3 ->
        TryParse k1 = Some addr ->
        TryParse k2 = Some addr ->
        Get ini section k2 "BOGUS" <> "BOGUS" ->
        TryParse (Get ini section k2 "BOGUS") = Some cycles2 ->
        (forall k, k ∈ l3 -> TryParse k <> Some addr) ->
        LoadSpeedhacks section ini speedHacks !! addr = Some (cast_int cycles2)
        /\ GetSpeedhackCycles (LoadSpeedhacks section ini speedHacks) addr
           = cast_int cycles2)
  /\ (forall key : string,
        TryParse key = None \/ TryParse (Get ini section key "BOGUS") = None ->
        LoadSpeedhacks_key section ini speedHacks key = speedHacks).
Proof.
  split; [| split].
  - intros addr Hnone. unfold GetSpeedhackCycles. rewrite Hnone. reflexivity.
  - intros l1 l2 l3 k1 k2 addr cycles2 Hkeys _ Hk2 Hbogus Hvalue Hafter.
    assert (Hlookup : LoadSpeedhacks section ini speedHacks !! addr
                      = Some (cast_int cycles2)).
    { apply (LoadSpeedhacks_last_key section ini speedHacks
               (l1 ++ k1 :: l2) l3 k2); try assumption.
      rewrite Hkeys, <- app_assoc. reflexivity. }
    split; [exact Hlookup |].
    unfold GetSpeedhackCycles. rewrite Hlookup. reflexivity.
  - intros key Hfail. unfold LoadSpeedhacks_key.
    destruct (String.eqb _ "BOGUS"); [reflexivity |].
    destruct Hfail as [-> | ->]; [reflexivity |].
    destruct (TryParse key); reflexivity.
Qed.

(** C10: the cycle count is parsed as a [u32] and stored as an [int]. A
    configured value [v] with [2^31 <= v < 2^32], under the last key that
    parses to its address, is held in the table, and returned by
    [GetSpeedhackCycles], as the negative number [v - 2^32]. *)
Theorem speedhack_cycles_wrap_negative (section : string) (ini : IniFile)
    (speedHacks : gmap Z Z) (before after : list string) (key : string)
    (addr v : Z) :
  GetKeys ini section = before ++ key :: after ->
  Get ini section key "BOGUS" <> "BOGUS" ->
  TryParse key = Some addr ->
  TryParse (Get ini section key "BOGUS") = Some v ->
  (forall k, k ∈ after -> TryParse k <> Some addr) ->
  2 ^ 31 <= v < 2 ^ 32 ->
  LoadSpeedhacks section ini speedHacks !! addr = Some (v - 2 ^ 32)
  /\ GetSpeedhackCycles (LoadSpeedhacks section ini speedHacks) addr = v - 2 ^ 32
  /\ v - 2 ^ 32 < 0.
Proof.
  intros Hkeys Hbogus Hkey Hvalue Hafter Hv.
  pose proof (LoadSpeedhacks_last_key section ini speedHacks before after key
                addr v Hkeys Hbogus Hkey Hvalue Hafter) as Hlookup.
  assert (Hcast : cast_int v = v - 2 ^ 32).
  { unfold cast_int. destruct (Z.ltb_spec v (2 ^ 31)); [lia | reflexivity]. }
  rewrite Hcast in Hlookup.
  split; [exact Hlookup |]. split; [| lia].
  unfold GetSpeedhackCycles. rewrite Hlookup. reflexivity.
Qed.

End SpeedhackProperties.

(** ** Reload *)

Section LifecycleProperties.
Context `{StringUtil}.

(** [LoadPatches] on a loaded engine appends to the collection it finds. *)
Lemma LoadPatches_appends (cfg : SConfig) (e : Engine) :
  onFrame (LoadPatches cfg e)
  = onFrame e ++ onFrame (LoadPatches cfg Engine_initial).
Proof. unfold LoadPatches. cbn [onFrame]. apply LoadPatchSection_app. Qed.

(** C8: whatever the engine holds, [Reload] leaves the patch collection
    and the speedhack table that the first [LoadPatches] of the same
    configuration builds from the initial, empty engine. *)
Theorem Reload_reproduces_first_load (cfg : SConfig) (e : Engine) :
  onFrame (Reload cfg e) = onFrame (LoadPatches cfg Engine_initial)
  /\ speedHacks (Reload cfg e) = speedHacks (LoadPatches cfg Engine_initial).
Proof. unfold Reload, Shutdown, Engine_initial. split; reflexivity. Qed.

End LifecycleProperties.

(** ** The patch applier *)

Section ApplierProperties.
Context {M : Type} `{HostMachine M}.

(** C9: [IsEnabledMusicCode] returns a value, and then [true], exactly on
    a patch named [[P+] Music Off] while the music-off option is set. On
    every other patch it returns none; if such a patch is inactive the
    guard of [ApplyPatches] has no value either, and neither has the
    application of any collection that holds the patch. *)
Theorem IsEnabledMusicCode_partial (cfg : SConfig) (patch : Patch) :
  (bBrawlMusicOff cfg = true /\ name patch = "[P+] Music Off" ->
   IsEnabledMusicCode cfg patch = Some true)
  /\ (~ (bBrawlMusicOff cfg = true /\ name patch = "[P+] Music Off") ->
      IsEnabledMusicCode cfg patch = None
      /\ (active patch = false ->
          patch_guard cfg patch = None
          /\ forall (patches : list Patch) (m : M),
               patch ∈ patches -> ApplyPatches cfg patches m = None)).
Proof.
  unfold patch_guard, IsEnabledMusicCode. split.
  - intros [-> ->]. reflexivity.
  - intros Hnot.
    assert (Hcond : bBrawlMusicOff cfg && String.eqb (name patch) "[P+] Music Off"
                    = false).
    { destruct (bBrawlMusicOff cfg); [| reflexivity].
      destruct (String.eqb_spec (name patch) "[P+] Music Off"); [| reflexivity].
      exfalso. apply Hnot. split; [reflexivity | assumption]. }
    rewrite Hcond. split; [reflexivity |].
    intros Hinactive. rewrite Hinactive. split; [reflexivity |].
    intros patches. induction patches as [| p patches IH]; intros m Hin.
    + apply elem_of_nil in Hin. contradiction.
    + cbn [ApplyPatches]. apply elem_of_cons in Hin as [<- | Hin].
      * unfold patch_guard, IsEnabledMusicCode. rewrite Hinactive, Hcond.
        reflexivity.
      * destruct (patch_guard cfg p) as [g |]; [| reflexivity].
        cbn. apply IH. exact Hin.
Qed.

(** One entry: the [switch] issues the declared write. *)
Lemma apply_entry_write (m : M) (e : PatchEntry) :
  u32_range (value e) ->
  apply_entry m e = foldl issue m (omap entry_write [e]).
Proof.
  destruct e as [t a v]. unfold u32_range. cbn [value]. intros Hv.
  unfold apply_entry; destruct t; cbn.
  - reflexivity.
  - reflexivity.
  - unfold issue. cbn. rewrite Z.mod_small by lia. reflexivity.
  - reflexivity.
Qed.

Lemma apply_entries_writes (es : list PatchEntry) :
  Forall (fun e => u32_range (value e)) es ->
  forall m : M, foldl apply_entry m es = foldl issue m (omap entry_write es).
Proof.
  induction 1 as [| e es He _ IH]; intros m; [reflexivity |].
  cbn [foldl]. rewrite IH, (apply_entry_write m e He).
  change (e :: es) with ([e] ++ es). rewrite omap_app, foldl_app. reflexivity.
Qed.

Lemma ApplyPatches_writes (cfg : SConfig) (patches : list Patch) :
  Forall (fun p => applied cfg p = true) patches ->
  Forall (fun p => Forall (fun e => u32_range (value e)) (entries p)) patches ->
  forall m : M,
    ApplyPatches cfg patches m = Some (foldl issue m (patch_writes patches)).
Proof.
  induction patches as [| p patches IH]; intros Happlied Hrange m; [reflexivity |].
  apply Forall_cons in Happlied as [Hp Happlied].
  apply Forall_cons in Hrange as [Hes Hrange].
  cbn [ApplyPatches].
  assert (Hguard : patch_guard cfg p = Some true).
  { unfold patch_guard, IsEnabledMusicCode.
    unfold applied, music_off_override in Hp.
    destruct (active p); [reflexivity |]. cbn in Hp. rewrite Hp. reflexivity. }
  rewrite Hguard. cbn. rewrite IH by assumption.
  rewrite (apply_entries_writes _ Hes).
  unfold patch_writes. cbn. rewrite foldl_app. reflexivity.
Qed.

(** C3, amended: with both translation flags on and a sane stack, on a
    collection in which every patch is active or is the music-off patch
    while that option is set, [ApplyFramePatches] returns [true] and
    issues exactly the writes of the entries of those patches, in the
    order of the collection and, within a patch, in the order of its
    entries, each of the entry's width (8, 16 or 32 bits) with the entry's
    value truncated to that width, at the entry's address; the two
    interpreters run after the writes. *)
Theorem ApplyFramePatches_applies (cfg : SConfig) (onFrame : list Patch) (m : M) :
  MSR_DR m = true ->
  MSR_IR m = true ->
  IsStackSane m = true ->
  Forall (fun p => active p = true
                   \/ (bBrawlMusicOff cfg = true /\ name p = "[P+] Music Off"))
         onFrame ->
  Forall (fun p => Forall (fun e => u32_range (value e)) (entries p)) onFrame ->
  ApplyFramePatches cfg onFrame m
  = Some (true, after_frame m (patch_writes (filter (fun p => applied cfg p = true) onFrame))).
Proof.
  intros Hdr Hir Hsane Hguard Hrange.
  assert (Happlied : Forall (fun p => applied cfg p = true) onFrame).
  { eapply Forall_impl; [exact Hguard |].
    intros p [Hact | [Hflag Hname]]; unfold applied, music_off_override.
    - rewrite Hact. reflexivity.
    - rewrite Hflag, Hname. apply orb_true_r. }
  assert (Hfilter : filter (fun p => applied cfg p = true) onFrame = onFrame).
  { clear -Happlied. induction Happlied as [| p ps Hp _ IH]; [reflexivity |].
    rewrite filter_cons_True by exact Hp. rewrite IH. reflexivity. }
  rewrite Hfilter.
  unfold ApplyFramePatches. rewrite Hdr, Hir, Hsane. cbn.
  rewrite (ApplyPatches_writes cfg onFrame Happlied Hrange). reflexivity.
Qed.

End ApplierProperties.

(** ** The loader, block by block *)

Section LoaderBlocks.
Context `{StringUtil}.

Lemma extend_entries_nil (p : Patch) : extend_entries p [] = p.
Proof. destruct p. unfold extend_entries. cbn. rewrite app_nil_r. reflexivity. Qed.

Lemma extend_entries_app (p : Patch) (es1 es2 : list PatchEntry) :
  extend_entries (extend_entries p es1) es2 = extend_entries p (es1 ++ es2).
Proof. unfold extend_entries. cbn. rewrite app_assoc. reflexivity. Qed.

(** The pass over the lines from any loader state, followed by the final
    commit, in terms of the blocks of the lines. *)
Lemma LoadPatchSection_lines_blocks (enabledNames : gset string) (is_local : bool)
    (lines : list string) :
  forall (patches : list Patch) (currentPatch : Patch),
    commit_last (foldl (LoadPatchSection_line enabledNames is_local)
                       (patches, currentPatch) lines)
    = match split_blocks lines with
      | (head, []) =>
          commit_last (patches, extend_entries currentPatch (block_entries head))
      | (head, b :: bs) =>
          patches
          ++ (if String.eqb (name currentPatch) "" then []
              else [extend_entries currentPatch (block_entries head)])
          ++ committed_blocks enabledNames is_local (b :: bs)
      end.
Proof.
  induction lines as [| line lines IH]; intros patches currentPatch.
  - cbn [foldl split_blocks]. unfold block_entries. cbn [omap list_omap].
    rewrite extend_entries_nil. reflexivity.
  - cbn [foldl split_blocks].
    destruct (split_blocks lines) as [head blocks] eqn:Hsplit.
    destruct line as [| c rest].
    + (* an empty line is skipped *)
      cbn [LoadPatchSection_line marker_name]. rewrite IH. reflexivity.
    + unfold LoadPatchSection_line, marker_name.
      destruct (Ascii.eqb c "$") eqn:Hc.
      * (* a marker line commits the accumulator and starts a block *)
        rewrite IH. unfold block_entries at 3. cbn [omap list_omap].
        rewrite extend_entries_nil.
        set (p := block_patch enabledNames is_local (rest, head)).
        change (extend_entries
                  (mkPatch rest [] (bool_decide (rest ∈ enabledNames)) is_local)
                  (block_entries head)) with p.
        change (name (mkPatch rest [] (bool_decide (rest ∈ enabledNames)) is_local))
          with (name p).
        destruct blocks as [| b bs].
        -- cbn [committed_blocks]. fold p. unfold commit_last.
           destruct (negb (String.eqb (name p) "")
                     && negb (Nat.eqb (length (entries p)) 0));
             destruct (String.eqb (name currentPatch) "");
             rewrite ?app_nil_r, <- ?app_assoc; reflexivity.
        -- change (committed_blocks enabledNames is_local ((rest, head) :: b :: bs))
             with ((if String.eqb (name p) "" then [] else [p])
                   ++ committed_blocks enabledNames is_local (b :: bs)).
           destruct (String.eqb (name currentPatch) "");
             rewrite <- ?app_assoc; reflexivity.
      * (* an entry line *)
        assert (Hentries : block_entries (String c rest :: head)
                           = match parse_entry_line (String c rest) with
                             | Some pE => pE :: block_entries head
                             | None => block_entries head
                             end).
        { unfold block_entries. cbn [omap list_omap entry_of_line]. rewrite Hc.
          reflexivity. }
        rewrite Hentries.
        destruct (parse_entry_line (String c rest)) as [pE |].
        -- change (mkPatch (name currentPatch) (entries currentPatch ++ [pE])
                     (active currentPatch) (user_defined currentPatch))
             with (extend_entries currentPatch [pE]).
           rewrite IH, extend_entries_app. reflexivity.
        -- apply IH.
Qed.

Lemma LoadPatchSection_ini_blocks (section : string) (enabledNames : gset string)
    (is_local : bool) (ini : IniFile) (patches : list Patch) :
  LoadPatchSection_ini section enabledNames is_local ini patches
  = patches
    ++ committed_blocks enabledNames is_local (snd (split_blocks (GetLines ini section))).
Proof.
  unfold LoadPatchSection_ini. rewrite LoadPatchSection_lines_blocks.
  destruct (split_blocks (GetLines ini section)) as [head [| b bs]]; cbn [snd].
  - unfold commit_last. cbn. rewrite app_nil_r. reflexivity.
  - reflexivity.
Qed.

(** X1: the single pass of the loader agrees with the reading by blocks:
    a call appends, for the default source and then for the override
    source, one patch per block of the section, holding the entries its
    lines parse to in their order; a block followed by another is kept when
    its name is not empty, the last block of a source when it also has an
    entry. *)
Theorem LoadPatchSection_by_blocks (section : string) (patches : list Patch)
    (globalIni localIni : IniFile) :
  let enabledNames :=
    collect_enabledNames (GetLines localIni (String.append section "_Enabled")) in
  LoadPatchSection section patches globalIni localIni
  = patches
    ++ committed_blocks enabledNames false (snd (split_blocks (GetLines globalIni section)))
    ++ committed_blocks enabledNames true (snd (split_blocks (GetLines localIni section))).
Proof.
  intros enabledNames. unfold LoadPatchSection. fold enabledNames.
  rewrite !LoadPatchSection_ini_blocks, <- app_assoc. reflexivity.
Qed.

(** *** What the blocks hold *)

Lemma split_blocks_names (lines : list string) :
  map fst (snd (split_blocks lines)) = omap marker_name lines.
Proof.
  induction lines as [| line lines IH]; [reflexivity |].
  cbn [split_blocks omap list_omap].
  destruct (split_blocks lines) as [head blocks]. cbn [snd] in IH.
  destruct (marker_name line) as [n |]; cbn [snd map fst]; rewrite IH; reflexivity.
Qed.

Lemma marker_name_Some (line n : string) :
  marker_name line = Some n <-> line = String "$" n.
Proof.
  unfold marker_name. destruct line as [| c rest]; [split; discriminate |].
  destruct (Ascii.eqb_spec c "$") as [-> | Hc].
  - split; [intros [= ->]; reflexivity | intros [= ->]; reflexivity].
  - split; [discriminate | intros [= ? ?]; contradiction].
Qed.

(** The lines of a block, and its marker, are lines of the section. *)
Lemma split_blocks_lines (lines : list string) :
  (forall line, line ∈ fst (split_blocks lines) -> line ∈ lines)
  /\ (forall n body, (n, body) ∈ snd (split_blocks lines) ->
        String "$" n ∈ lines /\ forall line, line ∈ body -> line ∈ lines).
Proof.
  induction lines as [| l lines [IHhead IHblocks]].
  - cbn. split; [intros line Hin | intros n body Hin]; apply elem_of_nil in Hin;
      contradiction.
  - cbn [split_blocks]. destruct (split_blocks lines) as [head blocks].
    cbn [fst snd] in *.
    destruct (marker_name l) as [m |] eqn:Hm; cbn [fst snd].
    + apply marker_name_Some in Hm. subst l. split.
      * intros line Hin. apply elem_of_nil in Hin. contradiction.
      * intros n body Hin. apply elem_of_cons in Hin as [[= -> ->] | Hin].
        -- split; [apply elem_of_cons; left; reflexivity |].
           intros line Hline. apply elem_of_cons. right. apply IHhead. exact Hline.
        -- destruct (IHblocks n body Hin) as [Hmark Hbody].
           split; [apply elem_of_cons; right; exact Hmark |].
           intros line Hline. apply elem_of_cons. right. apply Hbody. exact Hline.
    + split.
      * intros line Hin. apply elem_of_cons in Hin as [-> | Hin];
          apply elem_of_cons; [left; reflexivity | right; apply IHhead; exact Hin].
      * intros n body Hin. destruct (IHblocks n body Hin) as [Hmark Hbody].
        split; [apply elem_of_cons; right; exact Hmark |].
        intros line Hline. apply elem_of_cons. right. apply Hbody. exact Hline.
Qed.

(** A committed patch is the patch of a block with a name. *)
Lemma elem_of_committed_blocks (enabledNames : gset string) (is_local : bool)
    (blocks : list (string * list string)) (p : Patch) :
  p ∈ committed_blocks enabledNames is_local blocks ->
  exists b, b ∈ blocks /\ p = block_patch enabledNames is_local b /\ fst b <> "".
Proof.
  induction blocks as [| b blocks IH]; intros Hin.
  - apply elem_of_nil in Hin. contradiction.
  - cbn [committed_blocks] in Hin. destruct blocks as [| b' blocks'].
    + destruct (String.eqb_spec (name (block_patch enabledNames is_local b)) "")
        as [Hname | Hname]; cbn [negb andb] in Hin.
      * apply elem_of_nil in Hin. contradiction.
      * destruct (negb _) in Hin; [| apply elem_of_nil in Hin; contradiction].
        apply list_elem_of_singleton in Hin. subst p.
        exists b. split; [apply elem_of_cons; left; reflexivity |].
        split; [reflexivity | exact Hname].
    + apply elem_of_app in Hin as [Hin | Hin].
      * destruct (String.eqb_spec (name (block_patch enabledNames is_local b)) "")
          as [Hname | Hname]; [apply elem_of_nil in Hin; contradiction |].
        apply list_elem_of_singleton in Hin. subst p.
        exists b. split; [apply elem_of_cons; left; reflexivity |].
        split; [reflexivity | exact Hname].
      * destruct (IH Hin) as (b0 & Hb0 & Hp & Hname).
        exists b0. split; [apply elem_of_cons; right; exact Hb0 |].
        split; assumption.
Qed.

(** An entry of a block is what one of its lines parses to. *)
Lemma elem_of_block_entries (body : list string) (e : PatchEntry) :
  e ∈ block_entries body ->
  exists line, line ∈ body /\ parse_entry_line line = Some e.
Proof.
  unfold block_entries. intros Hin. apply list_elem_of_omap in Hin as (line & Hline & He).
  exists line. split; [exact Hline |].
  unfold entry_of_line in He. destruct line as [| c rest]; [discriminate |].
  destruct (Ascii.eqb c "$"); [discriminate | exact He].
Qed.

Lemma token_type_valid (tok : string) (t : PatchType) :
  token_type tok = Some t -> t <> PatchType_3.
Proof. intros Ht. apply token_type_find_index in Ht as [_ Hne]. exact Hne. Qed.

(** The patches a call appends, named by what the call returns. *)
Lemma LoadPatchSection_loaded (section : string) (patches loaded : list Patch)
    (globalIni localIni : IniFile) :
  LoadPatchSection section patches globalIni localIni = patches ++ loaded ->
  loaded
  = committed_blocks
      (collect_enabledNames (GetLines localIni (String.append section "_Enabled")))
      false (snd (split_blocks (GetLines globalIni section)))
    ++ committed_blocks
      (collect_enabledNames (GetLines localIni (String.append section "_Enabled")))
      true (snd (split_blocks (GetLines localIni section))).
Proof.
  unfold LoadPatchSection. rewrite !LoadPatchSection_ini_blocks, <- app_assoc.
  intros Heq%app_inv_head. symmetry. exact Heq.
Qed.

(** X2: every patch a call appends has a name that is not empty, and [$]
    followed by that name is a line of the section in the source the
    patch's [user_defined] flag points to: the override source when the
    flag is set, the default source when it is not. *)
Theorem LoadPatchSection_patch_origin (section : string) (patches loaded : list Patch)
    (globalIni localIni : IniFile) :
  LoadPatchSection section patches globalIni localIni = patches ++ loaded ->
  forall p : Patch, p ∈ loaded ->
    name p <> ""
    /\ String "$" (name p)
         ∈ GetLines (if user_defined p then localIni else globalIni) section.
Proof.
  intros Hload%LoadPatchSection_loaded p Hp. subst loaded.
  apply elem_of_app in Hp as [Hp | Hp];
    apply elem_of_committed_blocks in Hp as ([n body] & Hb & -> & Hname);
    cbn [fst] in Hname; cbn [block_patch name user_defined fst];
    (split; [exact Hname |]);
    apply (split_blocks_lines _) in Hb as [Hmark _]; exact Hmark.
Qed.

(** X3: every entry of every appended patch comes from a line of the
    section in the patch's own source: the line has at least three fields
    that parse to the entry's address, type token and value, and the type
    is one of the three enumerators, never the value 3 of a failed
    lookup. *)
Theorem LoadPatchSection_entry_origin (section : string) (patches loaded : list Patch)
    (globalIni localIni : IniFile) :
  LoadPatchSection section patches globalIni localIni = patches ++ loaded ->
  forall (p : Patch) (e : PatchEntry), p ∈ loaded -> e ∈ entries p ->
    type e <> PatchType_3
    /\ exists line,
         line ∈ GetLines (if user_defined p then localIni else globalIni) section
         /\ entry_line_fields line e.
Proof.
  intros Hload%LoadPatchSection_loaded p e Hp He. subst loaded.
  assert (Horigin : exists line,
             line ∈ GetLines (if user_defined p then localIni else globalIni) section
             /\ parse_entry_line line = Some e).
  { apply elem_of_app in Hp as [Hp | Hp];
      apply elem_of_committed_blocks in Hp as ([n body] & Hb & -> & _);
      cbn [block_patch entries snd] in He; cbn [block_patch user_defined];
      apply elem_of_block_entries in He as (line & Hline & Hparse);
      apply (split_blocks_lines _) in Hb as [_ Hbody];
      exists line; (split; [apply Hbody; exact Hline | exact Hparse]). }
  destruct Horigin as (line & Hline & Hparse).
  apply parse_entry_line_fields in Hparse.
  split.
  - destruct Hparse as (i0 & i1 & i2 & more & _ & _ & _ & Htok).
    exact (token_type_valid _ _ Htok).
  - exists line. split; assumption.
Qed.

(** X4: the patches of the default source come first, none of them flagged
    [user_defined]; the patches of the override source follow, all of them
    flagged. *)
Theorem LoadPatchSection_default_then_user (section : string)
    (patches loaded : list Patch) (globalIni localIni : IniFile) :
  LoadPatchSection section patches globalIni localIni = patches ++ loaded ->
  exists from_default from_user : list Patch,
    loaded = from_default ++ from_user
    /\ Forall (fun p => user_defined p = false
                        /\ String "$" (name p) ∈ GetLines globalIni section)
              from_default
    /\ Forall (fun p => user_defined p = true
                        /\ String "$" (name p) ∈ GetLines localIni section)
              from_user.
Proof.
  intros Hload%LoadPatchSection_loaded.
  eexists _, _. split; [exact Hload |].
  split; apply Forall_forall; intros p Hp;
    apply elem_of_committed_blocks in Hp as ([n body] & Hb & -> & _);
    (split; [reflexivity |]);
    apply (split_blocks_lines _) in Hb as [Hmark _]; exact Hmark.
Qed.

Lemma committed_blocks_names (enabledNames : gset string) (is_local : bool)
    (blocks : list (string * list string)) :
  map name (committed_blocks enabledNames is_local blocks) `sublist_of` map fst blocks.
Proof.
  induction blocks as [| b blocks IH]; [reflexivity |].
  cbn [committed_blocks]. destruct blocks as [| b' blocks'].
  - destruct (_ && _); cbn; [reflexivity | apply sublist_nil_l].
  - rewrite map_app. change (map fst (b :: b' :: blocks'))
      with ([fst b] ++ map fst (b' :: blocks')).
    apply sublist_app; [| exact IH].
    destruct (String.eqb _ ""); cbn; [apply sublist_nil_l | reflexivity].
Qed.

(** X5: the names of the appended patches, in the order of the
    collection, are picked in order from the names of the marker lines of
    the default source followed by those of the override source; so there
    are no more appended patches than marker lines. *)
Theorem LoadPatchSection_names_in_order (section : string)
    (patches loaded : list Patch) (globalIni localIni : IniFile) :
  LoadPatchSection section patches globalIni localIni = patches ++ loaded ->
  map name loaded
    `sublist_of` (omap marker_name (GetLines globalIni section)
                  ++ omap marker_name (GetLines localIni section))
  /\ (length loaded
      <= length (omap marker_name (GetLines globalIni section))
         + length (omap marker_name (GetLines localIni section)))%nat.
Proof.
  intros Hload%LoadPatchSection_loaded.
  assert (Hsub : map name loaded
                   `sublist_of` (omap marker_name (GetLines globalIni section)
                                 ++ omap marker_name (GetLines localIni section))).
  { subst loaded. rewrite map_app, <- !split_blocks_names.
    apply sublist_app; apply committed_blocks_names. }
  split; [exact Hsub |].
  apply sublist_length in Hsub. rewrite length_map, length_app in Hsub. exact Hsub.
Qed.

End LoaderBlocks.

(** ** The speedhack table as a whole *)

Section SpeedhackTable.
Context `{StringUtil}.

Lemma LoadSpeedhacks_key_union (section : string) (ini : IniFile)
    (loaded old : gmap Z Z) (key : string) :
  LoadSpeedhacks_key section ini (loaded ∪ old) key
  = LoadSpeedhacks_key section ini loaded key ∪ old.
Proof.
  unfold LoadSpeedhacks_key.
  destruct (String.eqb _ "BOGUS"); [reflexivity |].
  destruct (TryParse key) as [a |]; [| reflexivity].
  destruct (TryParse (Get ini section key "BOGUS")) as [c |]; [| reflexivity].
  apply insert_union_l.
Qed.

Lemma LoadSpeedhacks_keys_union (section : string) (ini : IniFile)
    (old : gmap Z Z) (keys : list string) :
  forall loaded : gmap Z Z,
    foldl (LoadSpeedhacks_key section ini) (loaded ∪ old) keys
    = foldl (LoadSpeedhacks_key section ini) loaded keys ∪ old.
Proof.
  induction keys as [| k keys IH]; intros loaded; [reflexivity |].
  cbn [foldl]. rewrite LoadSpeedhacks_key_union. apply IH.
Qed.

Lemma LoadSpeedhacks_from_empty (section : string) (ini : IniFile) (old : gmap Z Z) :
  LoadSpeedhacks section ini old = LoadSpeedhacks section ini ∅ ∪ old.
Proof.
  unfold LoadSpeedhacks. rewrite <- LoadSpeedhacks_keys_union.
  rewrite (left_id_L ∅ (∪)). reflexivity.
Qed.

(** X6: loading speedhacks into a table that already holds entries keeps
    every old entry whose address the section does not configure and
    replaces the others: the result is the table loaded from scratch, laid
    over the old one. In particular what a load contributes does not
    depend on what the table held. *)
Theorem LoadSpeedhacks_over_old (section : string) (ini : IniFile)
    (old : gmap Z Z) (addr : Z) :
  LoadSpeedhacks section ini old !! addr
  = match LoadSpeedhacks section ini ∅ !! addr with
    | Some cycles => Some cycles
    | None => old !! addr
    end.
Proof.
  rewrite LoadSpeedhacks_from_empty, lookup_union.
  destruct (LoadSpeedhacks section ini ∅ !! addr) as [c |];
    destruct (old !! addr); reflexivity.
Qed.

(** X7: loading the same section twice in a row gives the table that
    loading it once gives. *)
Theorem LoadSpeedhacks_twice (section : string) (ini : IniFile) (old : gmap Z Z) :
  LoadSpeedhacks section ini (LoadSpeedhacks section ini old)
  = LoadSpeedhacks section ini old.
Proof.
  rewrite (LoadSpeedhacks_from_empty section ini (LoadSpeedhacks section ini old)).
  rewrite (LoadSpeedhacks_from_empty section ini old).
  rewrite (assoc_L (∪)), (idemp_L (∪)). reflexivity.
Qed.

Lemma LoadSpeedhacks_key_lookup (section : string) (ini : IniFile)
    (speedHacks : gmap Z Z) (key : string) (addr c : Z) :
  LoadSpeedhacks_key section ini speedHacks key !! addr = Some c ->
  speedHacks !! addr = Some c
  \/ exists cycles, key_configures section ini key addr cycles /\ c = cast_int cycles.
Proof.
  unfold LoadSpeedhacks_key, key_configures.
  destruct (String.eqb_spec (Get ini section key "BOGUS") "BOGUS") as [| Hbogus];
    [auto |].
  destruct (TryParse key) as [a |]; [| auto].
  destruct (TryParse (Get ini section key "BOGUS")) as [cycles |]; [| auto].
  destruct (decide (a = addr)) as [-> | Hne].
  - rewrite lookup_insert_eq. intros [= <-]. right. exists cycles. auto.
  - rewrite lookup_insert_ne by exact Hne. auto.
Qed.

Lemma LoadSpeedhacks_keys_lookup (section : string) (ini : IniFile)
    (keys : list string) (addr c : Z) :
  forall speedHacks : gmap Z Z,
    foldl (LoadSpeedhacks_key section ini) speedHacks keys !! addr = Some c ->
    speedHacks !! addr = Some c
    \/ exists key cycles,
         key ∈ keys /\ key_configures section ini key addr cycles /\ c = cast_int cycles.
Proof.
  induction keys as [| k keys IH]; intros speedHacks Hlookup; [left; exact Hlookup |].
  cbn [foldl] in Hlookup. apply IH in Hlookup as [Hstep | (key & cycles & Hin & Hcfg)].
  - apply LoadSpeedhacks_key_lookup in Hstep as [Hold | (cycles & Hcfg)]; [auto |].
    right. exists k, cycles. split; [apply elem_of_cons; left; reflexivity | exact Hcfg].
  - right. exists key, cycles. split; [apply elem_of_cons; right; exact Hin | exact Hcfg].
Qed.

Lemma LoadSpeedhacks_key_keeps (section : string) (ini : IniFile)
    (speedHacks : gmap Z Z) (key : string) (addr : Z) :
  is_Some (speedHacks !! addr) ->
  is_Some (LoadSpeedhacks_key section ini speedHacks key !! addr).
Proof.
  intros Hsome. unfold LoadSpeedhacks_key.
  destruct (String.eqb _ "BOGUS"); [exact Hsome |].
  destruct (TryParse key) as [a |]; [| exact Hsome].
  destruct (TryParse (Get ini section key "BOGUS")) as [c |]; [| exact Hsome].
  rewrite lookup_insert. destruct (decide (a = addr)); [eexists; reflexivity | exact Hsome].
Qed.

Lemma LoadSpeedhacks_keys_keep (section : string) (ini : IniFile)
    (keys : list string) (addr : Z) :
  forall speedHacks : gmap Z Z,
    is_Some (speedHacks !! addr) ->
    is_Some (foldl (LoadSpeedhacks_key section ini) speedHacks keys !! addr).
Proof.
  induction keys as [| k keys IH]; intros speedHacks Hsome; [exact Hsome |].
  cbn [foldl]. apply IH. apply LoadSpeedhacks_key_keeps. exact Hsome.
Qed.

(** X8: the table loaded from scratch holds an address exactly when some
    key of the section configures it, that is, the key has a value, its
    name parses to the address and its value parses; and every cycle count
    the table holds is the [int] reading of the parsed value of such a
    key. *)
Theorem LoadSpeedhacks_holds_iff_configured (section : string) (ini : IniFile)
    (addr : Z) :
  (is_Some (LoadSpeedhacks section ini ∅ !! addr)
   <-> exists key cycles,
         key ∈ GetKeys ini section /\ key_configures section ini key addr cycles)
  /\ (forall c : Z,
        LoadSpeedhacks section ini ∅ !! addr = Some c ->
        exists key cycles,
          key ∈ GetKeys ini section
          /\ key_configures section ini key addr cycles /\ c = cast_int cycles).
Proof.
  assert (Horigin : forall c : Z,
             LoadSpeedhacks section ini ∅ !! addr = Some c ->
             exists key cycles,
               key ∈ GetKeys ini section
               /\ key_configures section ini key addr cycles /\ c = cast_int cycles).
  { intros c Hlookup. unfold LoadSpeedhacks in Hlookup.
    apply LoadSpeedhacks_keys_lookup in Hlookup as [Hempty | Hkey]; [| exact Hkey].
    rewrite lookup_empty in Hempty. discriminate. }
  split; [| exact Horigin]. split.
  - intros [c Hc]. destruct (Horigin c Hc) as (key & cycles & Hin & Hcfg & _).
    exists key, cycles. split; assumption.
  - intros (key & cycles & Hin & Hbogus & Hkey & Hvalue).
    apply list_elem_of_split in Hin as (before & after & Hkeys).
    unfold LoadSpeedhacks. rewrite Hkeys, foldl_app. cbn [foldl].
    apply LoadSpeedhacks_keys_keep.
    rewrite (LoadSpeedhacks_key_parsed _ _ _ _ addr cycles) by assumption.
    rewrite lookup_insert_eq. eexists. reflexivity.
Qed.

Lemma cast_int_range (v : Z) :
  u32_range v -> - 2 ^ 31 <= cast_int v < 2 ^ 31 /\ cast_u32 (cast_int v) = v.
Proof.
  unfold u32_range, cast_int, cast_u32. intros Hv.
  destruct (Z.ltb_spec v (2 ^ 31)).
  - split; [lia |]. apply Z.mod_small. lia.
  - split; [lia |].
    replace (v - 2 ^ 32) with (v + (-1) * 2 ^ 32) by lia.
    rewrite Z.mod_add by lia. apply Z.mod_small. lia.
Qed.

(** X9: when [TryParse] yields 32-bit values, every address the loaded
    table holds is a [u32], and [GetSpeedhackCycles] always answers with a
    number in the range of [int]. *)
Theorem GetSpeedhackCycles_int_range (section : string) (ini : IniFile) (addr : Z) :
  TryParse_u32 ->
  - 2 ^ 31 <= GetSpeedhackCycles (LoadSpeedhacks section ini ∅) addr < 2 ^ 31
  /\ (is_Some (LoadSpeedhacks section ini ∅ !! addr) -> u32_range addr).
Proof.
  intros Hu32.
  assert (Horigin : forall c : Z,
             LoadSpeedhacks section ini ∅ !! addr = Some c ->
             u32_range addr /\ - 2 ^ 31 <= c < 2 ^ 31).
  { intros c Hlookup. unfold LoadSpeedhacks in Hlookup.
    apply LoadSpeedhacks_keys_lookup in Hlookup
      as [Hempty | (key & cycles & _ & (_ & Hkey & Hvalue) & ->)].
    - rewrite lookup_empty in Hempty. discriminate.
    - split; [exact (Hu32 _ _ Hkey) |].
      apply cast_int_range. exact (Hu32 _ _ Hvalue). }
  split.
  - unfold GetSpeedhackCycles.
    destruct (LoadSpeedhacks section ini ∅ !! addr) as [c |] eqn:Hlookup.
    + apply (Horigin c). reflexivity.
    + lia.
  - intros [c Hc]. apply (Horigin c Hc).
Qed.

(** X10: the configured value can be read back from the answer: for the
    last key that parses to an address, with a value [v] that is a [u32],
    [GetSpeedhackCycles] reduced modulo [2^32] is [v], and it is [v] itself
    when [v < 2^31]. *)
Theorem GetSpeedhackCycles_reads_back (section : string) (ini : IniFile)
    (speedHacks : gmap Z Z) (before after : list string) (key : string)
    (addr v : Z) :
  GetKeys ini section = before ++ key :: after ->
  key_configures section ini key addr v ->
  (forall k, k ∈ after -> TryParse k <> Some addr) ->
  u32_range v ->
  cast_u32 (GetSpeedhackCycles (LoadSpeedhacks section ini speedHacks) addr) = v
  /\ (v < 2 ^ 31 -> GetSpeedhackCycles (LoadSpeedhacks section ini speedHacks) addr = v).
Proof.
  intros Hkeys (Hbogus & Hkey & Hvalue) Hafter Hv.
  pose proof (LoadSpeedhacks_last_key section ini speedHacks before after key
                addr v Hkeys Hbogus Hkey Hvalue Hafter) as Hlookup.
  unfold GetSpeedhackCycles. rewrite Hlookup.
  split; [apply cast_int_range; exact Hv |].
  intros Hsmall. unfold cast_int.
  destruct (Z.ltb_spec v (2 ^ 31)); [reflexivity | lia].
Qed.

End SpeedhackTable.

(** ** Frames: how the applier composes *)

Section FrameProperties.
Context {M : Type} `{HostMachine M}.

(** X11: applying a collection made of two parts is applying the first
    part and then, on the machine it leaves, the second; if the first part
    has no defined outcome, neither has the whole. *)
Theorem ApplyPatches_app (cfg : SConfig) (patches1 patches2 : list Patch) (m : M) :
  ApplyPatches cfg (patches1 ++ patches2) m
  = ApplyPatches cfg patches1 m ≫= ApplyPatches cfg patches2.
Proof.
  revert m. induction patches1 as [| p patches1 IH]; intros m; [reflexivity |].
  cbn [app ApplyPatches]. destruct (patch_guard cfg p) as [g |]; [| reflexivity].
  cbn. apply IH.
Qed.


End FrameProperties.

(** ** Loading, then frames *)

Section LoadedFrames.
Context `{StringUtil} {M : Type} `{HostMachine M}.

(** X13: after [Shutdown] no speedhack is left, and a frame whose
    preconditions hold issues no patch write: it returns [true] with the
    machine as the two interpreters leave it. *)
Theorem Shutdown_clears (cfg : SConfig) (e : Engine) (m : M) :
  MSR_DR m = true -> MSR_IR m = true -> IsStackSane m = true ->
  (forall addr : Z, GetSpeedhackCycles (speedHacks (Shutdown e)) addr = 0)
  /\ ApplyFramePatches cfg (onFrame (Shutdown e)) m
     = Some (true, ActionReplay_RunAllActive (Gecko_RunCodeHandler m)).
Proof.
  intros Hdr Hir Hsane. split.
  - intros addr. unfold GetSpeedhackCycles, Shutdown. cbn [speedHacks].
    rewrite lookup_empty. reflexivity.
  - unfold ApplyFramePatches, Shutdown. cbn [onFrame].
    rewrite Hdr, Hir, Hsane. reflexivity.
Qed.

(** X14: [LoadPatches] on an engine that is already loaded, without a
    [Shutdown] in between, appends a second copy of the patches to the
    collection, while the speedhack table stays as the first load left
    it. *)
Theorem LoadPatches_twice (cfg : SConfig) (e : Engine) :
  onFrame (LoadPatches cfg (LoadPatches cfg e))
  = onFrame (LoadPatches cfg e) ++ onFrame (LoadPatches cfg Engine_initial)
  /\ speedHacks (LoadPatches cfg (LoadPatches cfg e))
     = speedHacks (LoadPatches cfg e).
Proof.
  split.
  - unfold LoadPatches at 1. cbn [onFrame].
    rewrite LoadPatchSection_app. reflexivity.
  - unfold LoadPatches. cbn [speedHacks].
    rewrite (LoadSpeedhacks_from_empty _ _ (LoadSpeedhacks _ _ _)).
    rewrite (LoadSpeedhacks_from_empty _ _ (speedHacks e)).
    rewrite (assoc_L (∪)), (idemp_L (∪)). reflexivity.
Qed.

(** What a loaded patch is made of. *)
Lemma loaded_patch_parts (section : string) (globalIni localIni : IniFile) (p : Patch) :
  p ∈ LoadPatchSection section [] globalIni localIni ->
  (String "$" (name p) ∈ GetLines globalIni section
   \/ String "$" (name p) ∈ GetLines localIni section)
  /\ forall e, e ∈ entries p -> exists line, parse_entry_line line = Some e.
Proof.
  intros Hp.
  pose proof (LoadPatchSection_loaded section [] _ globalIni localIni eq_refl) as Hload.
  rewrite Hload in Hp.
  apply elem_of_app in Hp as [Hp | Hp];
    apply elem_of_committed_blocks in Hp as ([n body] & Hb & -> & _);
    apply (split_blocks_lines _) in Hb as [Hmark _];
    (split; [auto |]);
    intros e He; apply elem_of_block_entries in He as (line & _ & Hparse);
    exists line; exact Hparse.
Qed.

(** X15: load, then a frame. When [TryParse] yields 32-bit values and every
    [$] name of the [OnFrame] section, in either source, is listed in the
    override source's [OnFrame_Enabled] section or is the music-off patch
    with that option set, a frame whose preconditions hold returns [true]
    and issues, for every loaded patch in order, one write per entry in
    order, before the two interpreters run. *)
Theorem loaded_patches_written (cfg : SConfig) (m : M) :
  let globalIni := LoadDefaultGameIni cfg in
  let localIni := LoadLocalGameIni cfg in
  let loaded := onFrame (LoadPatches cfg Engine_initial) in
  TryParse_u32 ->
  MSR_DR m = true -> MSR_IR m = true -> IsStackSane m = true ->
  (forall n : string,
      String "$" n ∈ GetLines globalIni "OnFrame"
      \/ String "$" n ∈ GetLines localIni "OnFrame" ->
      String "$" n ∈ GetLines localIni "OnFrame_Enabled"
      \/ (bBrawlMusicOff cfg = true /\ n = "[P+] Music Off")) ->
  ApplyFramePatches cfg loaded m = Some (true, after_frame m (patch_writes loaded))
  /\ length (patch_writes loaded) = length (loaded ≫= entries).
Proof.
  intros globalIni localIni loaded Hu32 Hdr Hir Hsane Henabled.
  assert (Hloaded : loaded = LoadPatchSection "OnFrame" [] globalIni localIni)
    by reflexivity.
  assert (Hflags : Forall (flag_from (collect_enabledNames
                                        (GetLines localIni "OnFrame_Enabled"))) loaded).
  { rewrite Hloaded. unfold LoadPatchSection.
    do 2 apply LoadPatchSection_ini_flags. apply Forall_nil. exact I. }
  assert (Happlied : Forall (fun p => applied cfg p = true) loaded).
  { apply Forall_forall. intros p Hp.
    rewrite Forall_forall in Hflags. specialize (Hflags p Hp).
    rewrite Hloaded in Hp. apply loaded_patch_parts in Hp as [Hmark _].
    unfold applied, music_off_override.
    destruct (Henabled _ Hmark) as [Hlisted | [Hflag Hname]].
    - unfold flag_from in Hflags. rewrite Hflags.
      apply elem_of_collect_enabledNames in Hlisted.
      rewrite bool_decide_eq_true_2 by exact Hlisted. reflexivity.
    - rewrite Hflag, Hname. apply orb_true_r. }
  assert (Hparsed : forall p e, p ∈ loaded -> e ∈ entries p ->
                      u32_range (value e) /\ type e <> PatchType_3).
  { intros p e Hp He. rewrite Hloaded in Hp.
    apply loaded_patch_parts in Hp as [_ Hentries].
    destruct (Hentries e He) as (line & Hparse).
    apply parse_entry_line_fields in Hparse
      as (i0 & i1 & i2 & more & _ & _ & Hvalue & Htok).
    split; [exact (Hu32 _ _ Hvalue) | exact (token_type_valid _ _ Htok)]. }
  split.
  - unfold ApplyFramePatches. rewrite Hdr, Hir, Hsane. cbn.
    rewrite (ApplyPatches_writes cfg loaded Happlied); [reflexivity |].
    apply Forall_forall. intros p Hp. apply Forall_forall. intros e He.
    apply (Hparsed p e Hp He).
  - clear Hflags Happlied Hloaded.
    induction loaded as [| p ps IH]; [reflexivity |].
    unfold patch_writes in *. cbn [mbind list_bind]. rewrite !length_app. f_equal.
    + assert (Hes : forall e, e ∈ entries p -> type e <> PatchType_3).
      { intros e He. apply (Hparsed p e); [apply elem_of_cons; left; reflexivity | exact He]. }
      clear -Hes. induction (entries p) as [| e es IHes]; [reflexivity |].
      cbn [omap list_omap]. unfold entry_write at 1.
      destruct (type e) eqn:Ht; cbn;
        try (f_equal; apply IHes; intros e' He'; apply Hes; apply elem_of_cons; right;
             exact He').
      exfalso. apply (Hes e); [apply elem_of_cons; left; reflexivity | exact Ht].
    + apply IH. intros p' e Hp' He. apply (Hparsed p' e); [| exact He].
      apply elem_of_cons. right. exact Hp'.
Qed.

End LoadedFrames.

(** ** String helpers of the loader *)

Section StringHelpers.

(** X16: [replace_first_equals] turns the first [=] of a line into [:] and
    nothing else: what precedes it and what follows it, later [=] signs
    included, is kept; a line without [=] is returned as it is. *)
Theorem replace_first_equals_first (pre post line : string) :
  (forall c, In c (list_ascii_of_string pre) -> c <> "="%char) ->
  replace_first_equals (String.append pre (String "=" post))
  = String.append pre (String ":" post)
  /\ ((forall c, In c (list_ascii_of_string line) -> c <> "="%char) ->
      replace_first_equals line = line).
Proof.
  intros Hpre. split.
  - induction pre as [| c pre IH].
    + reflexivity.
    + change (String.append (String c pre) (String "=" post))
        with (String c (String.append pre (String "=" post))).
      change (String.append (String c pre) (String ":" post))
        with (String c (String.append pre (String ":" post))).
      cbn [replace_first_equals].
      destruct (Ascii.eqb_spec c "=") as [-> | Hc].
      * exfalso. apply (Hpre "="%char); [left; reflexivity | reflexivity].
      * rewrite IH; [reflexivity |].
        intros c' Hc'. apply Hpre. right. exact Hc'.
  - clear Hpre. induction line as [| c line IH]; intros Hline; [reflexivity |].
    cbn [replace_first_equals]. destruct (Ascii.eqb_spec c "=") as [-> | Hc].
    + exfalso. apply (Hline "="%char); [left; reflexivity | reflexivity].
    + rewrite IH; [reflexivity |]. intros c' Hc'. apply Hline. right. exact Hc'.
Qed.

(** X17: [find_index] is [std::find] by position: the index it gives is
    that of the first element equal to the item, no element before it is
    equal, and it is the length of the list exactly when no element is
    equal. For the type tokens this makes the type of an entry line the
    value 3 exactly when the token is none of [byte], [word], [dword]. *)
Theorem find_index_first (strs : list string) (item : string) :
  (find_index strs item <= length strs)%nat
  /\ (forall i s, (i < find_index strs item)%nat -> strs !! i = Some s -> s <> item)
  /\ (item ∈ strs -> strs !! find_index strs item = Some item)
  /\ (find_index strs item = length strs <-> item ∉ strs)
  /\ (PatchType_of_index (find_index PatchTypeStrings item) = PatchType_3
      <-> item ∉ PatchTypeStrings).
Proof.
  assert (Hgen : (find_index strs item <= length strs)%nat
                 /\ (forall i s, (i < find_index strs item)%nat ->
                                 strs !! i = Some s -> s <> item)
                 /\ (item ∈ strs -> strs !! find_index strs item = Some item)
                 /\ (find_index strs item = length strs <-> item ∉ strs)).
  { induction strs as [| s0 strs (IHle & IHbefore & IHat & IHnone)].
    - cbn [find_index length]. split; [lia |]. split; [intros i s Hi; lia |].
      split; [intros Hin; apply elem_of_nil in Hin; contradiction |].
      split; [intros _ Hin; apply elem_of_nil in Hin; contradiction | reflexivity].
    - cbn [find_index length]. destruct (String.eqb_spec s0 item) as [-> | Hne].
      + split; [lia |]. split; [intros i s Hi; lia |].
        split; [intros _; reflexivity |].
        split; [discriminate |].
        intros Hnot. exfalso. apply Hnot. apply elem_of_cons. left. reflexivity.
      + split; [lia |]. split; [| split; [| split]].
        * intros [| i] s Hi; cbn; [intros [= <-]; exact Hne |].
          apply IHbefore. lia.
        * intros Hin. apply elem_of_cons in Hin as [-> | Hin]; [contradiction |].
          cbn. apply IHat. exact Hin.
        * intros [= Heq] Hin. apply elem_of_cons in Hin as [-> | Hin]; [contradiction |].
          apply IHnone in Heq. contradiction.
        * intros Hnot. f_equal. apply IHnone. intros Hin. apply Hnot.
          apply elem_of_cons. right. exact Hin. }
  destruct Hgen as (H1 & H2 & H3 & H4).
  split; [exact H1 |]. split; [exact H2 |]. split; [exact H3 |]. split; [exact H4 |].
  split.
  - intros Ht Hin.
    assert (Hsome : exists t, token_type item = Some t).
    { unfold PatchTypeStrings in Hin. unfold token_type.
      apply elem_of_cons in Hin as [-> | Hin]; [eexists; reflexivity |].
      apply elem_of_cons in Hin as [-> | Hin]; [eexists; reflexivity |].
      apply list_elem_of_singleton in Hin as ->. eexists; reflexivity. }
    destruct Hsome as [t Htok]. apply token_type_find_index in Htok as [Hidx Hne].
    congruence.
  - intros Hnot.
    destruct (PatchType_of_index (find_index PatchTypeStrings item)) eqn:Ht;
      [exfalso .. | reflexivity].
    all: assert (Htok : token_type item = Some (PatchType_of_index
                                                   (find_index PatchTypeStrings item)))
      by (apply token_type_find_index; split; [reflexivity | rewrite Ht; discriminate]).
    all: apply Hnot; unfold token_type in Htok; unfold PatchTypeStrings.
    all: destruct (String.eqb_spec item "byte") as [-> | _];
      [apply elem_of_cons; left; reflexivity |].
    all: destruct (String.eqb_spec item "word") as [-> | _];
      [apply elem_of_cons; right; apply elem_of_cons; left; reflexivity |].
    all: destruct (String.eqb_spec item "dword") as [-> | _];
      [do 2 (apply elem_of_cons; right); apply elem_of_cons; left; reflexivity |].
    all: discriminate Htok.
Qed.

(** X18: the set of enabled names depends on which lines the enabled
    section holds, not on their order or on repetitions; lines that do not
    start with [$] contribute nothing. *)
Theorem collect_enabledNames_lines (lines1 lines2 : list string) :
  (forall n : string, String "$" n ∈ lines1 <-> String "$" n ∈ lines2) ->
  collect_enabledNames lines1 = collect_enabledNames lines2.
Proof.
  intros Hsame. apply set_eq. intros n.
  rewrite !elem_of_collect_enabledNames. apply Hsame.
Qed.

End StringHelpers.

(** ** NetPlay window: game names *)

Section GameNameProperties.
Context `{CLibrary}.

Lemma string_prefix_append (s t : string) : String.prefix s (String.append s t) = true.
Proof.
  induction s as [| c s IH]; [destruct t; reflexivity |].
  change (String.append (String c s) t) with (String c (String.append s t)).
  cbn [String.prefix]. destruct (ascii_dec c c) as [_ | Hne]; [exact IH | contradiction].
Qed.

Lemma string_prefix_refl (s : string) : String.prefix s s = true.
Proof.
  induction s as [| c s IH]; [reflexivity |].
  cbn [String.prefix]. destruct (ascii_dec c c) as [_ | Hne]; [exact IH | contradiction].
Qed.

Lemma string_length_append (s t : string) :
  String.length (String.append s t) = (String.length s + String.length t)%nat.
Proof.
  induction s as [| c s IH]; [reflexivity |].
  change (String.append (String c s) t) with (String c (String.append s t)).
  cbn [String.length]. rewrite IH. reflexivity.
Qed.

(** X19: the name [BuildGameName] shows always starts with the name of the
    game, the English one unless it is empty; it is that name alone
    exactly when there is nothing to add: no unique id, revision 0, and no
    disc number to mention. *)
Theorem BuildGameName_starts_with_name (game : GameListItem) :
  let name := BuildGameName_name game in
  String.prefix name (BuildGameName game) = true
  /\ (BuildGameName game = name <-> BuildGameName_info game name = []).
Proof.
  intros name. unfold BuildGameName. fold name.
  destruct (BuildGameName_info game name) as [| i info].
  - split; [apply string_prefix_refl | split; reflexivity].
  - split; [apply string_prefix_append |].
    split; [| discriminate].
    intros Heq. apply (f_equal String.length) in Heq.
    rewrite !string_length_append in Heq. cbn [String.length] in Heq. lia.
Qed.

(** X20: [FindGame] answers with the file name of a game of the list whose
    built name is the target, the first such game; when no game of the
    list has that name it answers with the empty string. *)
Theorem FindGame_first_match (game_list : list GameListItem) (target_game : string) :
  (forall before game after,
      game_list = before ++ game :: after ->
      BuildGameName game = target_game ->
      (forall g, g ∈ before -> BuildGameName g <> target_game) ->
      FindGame game_list target_game = GetFileName game)
  /\ ((forall g, g ∈ game_list -> BuildGameName g <> target_game) ->
      FindGame game_list target_game = "")
  /\ (FindGame game_list target_game <> "" ->
      exists game, game ∈ game_list
                   /\ BuildGameName game = target_game
                   /\ GetFileName game = FindGame game_list target_game).
Proof.
  assert (Hnone : forall games,
             (forall g, g ∈ games -> BuildGameName g <> target_game) ->
             forall rest, FindGame (games ++ rest) target_game
                          = FindGame rest target_game).
  { induction games as [| g games IH]; intros Hall rest; [reflexivity |].
    cbn [app FindGame].
    destruct (String.eqb_spec target_game (BuildGameName g)) as [Heq | _].
    - exfalso. apply (Hall g); [apply elem_of_cons; left; reflexivity | auto].
    - apply IH. intros g' Hg'. apply Hall. apply elem_of_cons. right. exact Hg'. }
  split; [| split].
  - intros before game after -> Hname Hbefore.
    rewrite (Hnone before Hbefore). cbn [FindGame].
    rewrite <- Hname, String.eqb_refl. reflexivity.
  - intros Hall. rewrite <- (app_nil_r game_list). rewrite (Hnone _ Hall). reflexivity.
  - induction game_list as [| g games IH]; cbn [FindGame]; [intros Hne; contradiction |].
    destruct (String.eqb_spec target_game (BuildGameName g)) as [Heq | _].
    + intros _. exists g. split; [apply elem_of_cons; left; reflexivity |].
      split; [auto | reflexivity].
    + intros Hne. destruct (IH Hne) as (game & Hin & Hname & Hfile).
      exists game. split; [apply elem_of_cons; right; exact Hin |].
      split; assumption.
Qed.

Lemma FillWithGameNames_map (game_list : list GameListItem) :
  forall game_lbox : list string,
    FillWithGameNames game_lbox game_list = game_lbox ++ map BuildGameName game_list.
Proof.
  unfold FillWithGameNames.
  induction game_list as [| g games IH]; intros game_lbox; cbn [foldl map].
  - rewrite app_nil_r. reflexivity.
  - rewrite IH, <- app_assoc. reflexivity.
Qed.

(** X21: from the list box back to the file. [FillWithGameNames] appends
    one item per game, in the order of the list, and selecting the item of
    a game makes [FindGame] answer with the file of that game, provided no
    game earlier in the list has the same built name. *)
Theorem FillWithGameNames_FindGame (game_lbox : list string)
    (game_list : list GameListItem) (i : nat) (game : GameListItem) :
  game_list !! i = Some game ->
  (forall j g, (j < i)%nat -> game_list !! j = Some g ->
               BuildGameName g <> BuildGameName game) ->
  exists item,
    FillWithGameNames game_lbox game_list !! (length game_lbox + i)%nat = Some item
    /\ length (FillWithGameNames game_lbox game_list)
       = (length game_lbox + length game_list)%nat
    /\ FindGame game_list item = GetFileName game.
Proof.
  intros Hi Hearlier. exists (BuildGameName game).
  rewrite FillWithGameNames_map.
  split; [| split].
  - rewrite lookup_app_r by lia.
    replace (length game_lbox + i - length game_lbox)%nat with i by lia.
    rewrite list_lookup_fmap, Hi. reflexivity.
  - rewrite length_app, length_map. reflexivity.
  - apply list_elem_of_split_length in Hi as (before & after & -> & ->).
    revert Hearlier. clear. intros Hearlier.
    induction before as [| g before IH]; cbn [app FindGame].
    + rewrite String.eqb_refl. reflexivity.
    + destruct (String.eqb_spec (BuildGameName game) (BuildGameName g)) as [Heq | _].
      * exfalso. apply (Hearlier 0%nat g); [cbn; lia | reflexivity | auto].
      * apply IH. intros j g' Hj Hg'. apply (Hearlier (S j) g'); [cbn in *; lia | exact Hg'].
Qed.

End GameNameProperties.

(** * Examples on the fixtures *)

Import Fixture.

(** *** Patch sections and the enabled list *)

(** C1: the claim is that every committed patch has at least one entry,
    also when it is committed at a [$] line. On the section
    [$A / $B / 1:byte:2] the loader commits [A] at the line [$B] with no
    entry at all: the commit at a marker tests the name only, the commit
    after the last line tests the name and the entries. *)
Theorem LoadPatchSection_commits_patch_without_entries :
  let globalIni := ini_of [("OnFrame", ["$A"; "$B"; "1:byte:2"])] [] in
  LoadPatchSection "OnFrame" [] globalIni no_ini
  = [ mkPatch "A" [] false false;
      mkPatch "B" [mkPatchEntry PATCH_8BIT 1 2] false false ].
Proof. vm_compute. reflexivity. Qed.

(** The sibling path: a patch without entries that is the last of its
    source is not committed. *)
Example LoadPatchSection_last_patch_without_entries :
  LoadPatchSection "OnFrame" []
    (ini_of [("OnFrame", ["$B"; "1:byte:2"; "$A"])] []) no_ini
  = [ mkPatch "B" [mkPatchEntry PATCH_8BIT 1 2] false false ].
Proof. vm_compute. reflexivity. Qed.

(** *** The frame hook and the stack heuristic *)

(** In real mode the active patch [T] is not written. *)
Lemma ApplyFramePatches_retry_witness :
  MSR_DR real_mode_machine = false /\
  ApplyFramePatches (mkSConfig false no_ini no_ini no_ini)
    [mkPatch "T" [mkPatchEntry PATCH_32BIT 0x80001234 0] true false]
    real_mode_machine
  = Some (false, real_mode_machine).
Proof.
  split; [reflexivity |].
  apply ApplyFramePatches_retry. left. reflexivity.
Defined.

(** The two-frame fixture passes the heuristic. *)
Lemma IsStackSane_cases_witness :
  HostIsRAMAddress sane_machine (GPR1 sane_machine) = true /\
  IsStackSane sane_machine = true.
Proof.
  split; [reflexivity |].
  destruct (IsStackSane_cases sane_machine) as (_ & _ & Hsane).
  apply Hsane.
  - reflexivity.
  - vm_compute. intros [Hle | [Hram | Hram]]; [apply Hle; reflexivity | discriminate ..].
  - vm_compute. split; [reflexivity | discriminate].
Defined.

(** *** Entry lines *)

(** An entry line with [=] after the address. *)
Lemma entry_line_appended_or_dropped_witness :
  let line := "2147488308=dword:0" in
  let currentPatch := mkPatch "T" [] true false in
  let st' := LoadPatchSection_line ∅ false ([], currentPatch) line in
  "2"%char <> "$"%char
  /\ ((exists pE, entry_line_fields line pE /\ st' = ([], push_entry currentPatch pE))
      \/ ((forall pE, ~ entry_line_fields line pE) /\ st' = ([], currentPatch))).
Proof.
  assert (Hc : "2"%char <> "$"%char) by discriminate.
  split; [exact Hc |].
  exact (entry_line_appended_or_dropped ∅ false [] (mkPatch "T" [] true false)
           "2"%char "147488308=dword:0" Hc).
Defined.

(** The override patch [Music] is enabled by the line [$Music]; so is the
    default patch of the same name. *)
Lemma active_iff_enabled_witness :
  let p := mkPatch "Music" [mkPatchEntry PATCH_8BIT 0x80001244 7] true true in
  LoadPatchSection "OnFrame" [] default_ini user_ini = [] ++ loaded_patches
  /\ p ∈ loaded_patches
  /\ (active p = true <-> "$Music" ∈ GetLines user_ini "OnFrame_Enabled")
  /\ (forall q : Patch, q ∈ loaded_patches -> name q = name p -> active q = active p).
Proof.
  assert (Hload : LoadPatchSection "OnFrame" [] default_ini user_ini
                  = [] ++ loaded_patches) by (vm_compute; reflexivity).
  assert (Hp : mkPatch "Music" [mkPatchEntry PATCH_8BIT 0x80001244 7] true true
               ∈ loaded_patches) by (unfold loaded_patches; repeat constructor).
  split; [exact Hload |]. split; [exact Hp |].
  exact (active_iff_enabled "OnFrame" [] loaded_patches default_ini user_ini Hload _ Hp).
Defined.

(** *** Speedhacks *)

(** The keys [16] and [016] name one address; [48] has a value that does
    not parse. *)
Lemma speedhack_table_contents_witness :
  GetSpeedhackCycles ∅ 16 = 0
  /\ GetSpeedhackCycles (LoadSpeedhacks "Speedhacks" user_ini ∅) 16 = 7
  /\ LoadSpeedhacks_key "Speedhacks" user_ini ∅ "48" = ∅.
Proof.
  destruct (speedhack_table_contents "Speedhacks" user_ini ∅) as (Habsent & Hlater & Hskip).
  split; [| split].
  - apply Habsent. reflexivity.
  - apply (Hlater [] ["x"] ["32"; "48"] "16" "016" 16 7); try reflexivity.
    + vm_compute. discriminate.
    + intros k Hk. apply elem_of_cons in Hk as [-> | Hk];
        [vm_compute; discriminate |].
      apply elem_of_cons in Hk as [-> | Hk]; [vm_compute; discriminate |].
      apply elem_of_nil in Hk. contradiction.
  - apply Hskip. right. reflexivity.
Defined.

(** The value [4294967295] reads back as a negative number. *)
Lemma speedhack_cycles_wrap_negative_witness :
  LoadSpeedhacks "Speedhacks" user_ini ∅ !! 32 = Some (4294967295 - 2 ^ 32)
  /\ GetSpeedhackCycles (LoadSpeedhacks "Speedhacks" user_ini ∅) 32 = 4294967295 - 2 ^ 32
  /\ 4294967295 - 2 ^ 32 < 0.
Proof.
  apply (speedhack_cycles_wrap_negative "Speedhacks" user_ini ∅
           ["16"; "x"; "016"] ["48"] "32" 32 4294967295); try reflexivity.
  - vm_compute. discriminate.
  - intros k Hk. apply elem_of_cons in Hk as [-> | Hk]; [vm_compute; discriminate |].
    apply elem_of_nil in Hk. contradiction.
  - split; [vm_compute; discriminate | reflexivity].
Defined.

Example GetSpeedhackCycles_minus_one :
  GetSpeedhackCycles (LoadSpeedhacks "Speedhacks" user_ini ∅) 32 = -1.
Proof. vm_compute. reflexivity. Qed.

(** *** Applying patches *)

(** With the option set the music-off patch passes; the inactive patch
    [Widescreen] has no guard value, nor has the collection it is in. *)
Lemma IsEnabledMusicCode_partial_witness :
  IsEnabledMusicCode music_off_cfg music_off_patch = Some true
  /\ IsEnabledMusicCode music_off_cfg widescreen_patch = None
  /\ patch_guard music_off_cfg widescreen_patch = None
  /\ ApplyPatches music_off_cfg loaded_patches sane_machine = None.
Proof.
  destruct (IsEnabledMusicCode_partial (M := Machine) music_off_cfg music_off_patch)
    as [Hoverride _].
  destruct (IsEnabledMusicCode_partial (M := Machine) music_off_cfg widescreen_patch)
    as [_ Hother].
  assert (Hname : ~ (bBrawlMusicOff music_off_cfg = true
                     /\ name widescreen_patch = "[P+] Music Off")).
  { intros [_ Heq]. discriminate Heq. }
  destruct (Hother Hname) as [Hnone Hguard].
  destruct (Hguard eq_refl) as [Hguard_none Happly].
  split; [apply Hoverride; split; reflexivity |].
  split; [exact Hnone |].
  split; [exact Hguard_none |].
  apply Happly. unfold loaded_patches. constructor.
Defined.

(** Against C3 as stated, that exactly the entries of the active patches
    are written. With the music-off option set, the collection that holds only
    the inactive patch [[P+] Music Off] has no active patch, and yet the
    call returns [true] and issues that patch's write: its outcome is not
    the outcome of issuing the writes of the active patches. *)
Lemma ApplyFramePatches_writes_inactive_music_off :
  let onFrame := [music_off_patch] in
  MSR_DR sane_machine = true
  /\ MSR_IR sane_machine = true
  /\ IsStackSane sane_machine = true
  /\ patch_writes (filter (fun p => active p = true) onFrame) = []
  /\ outcome (ApplyFramePatches music_off_cfg onFrame sane_machine)
     = Some (true, [Write_U8 255 0x80001234; RunCodeHandler; RunAllActive])
  /\ ApplyFramePatches music_off_cfg onFrame sane_machine
     <> Some (true, after_frame sane_machine
                      (patch_writes (filter (fun p => active p = true) onFrame))).
Proof.
  cbv zeta.
  split; [reflexivity |]. split; [reflexivity |].
  split; [vm_compute; reflexivity |]. split; [vm_compute; reflexivity |].
  split; [vm_compute; reflexivity |].
  intros Heq. apply (f_equal outcome) in Heq.
  vm_compute in Heq. discriminate Heq.
Qed.

(** Two active patches around the music-off patch. *)
Lemma ApplyFramePatches_applies_witness :
  MSR_DR sane_machine = true
  /\ MSR_IR sane_machine = true
  /\ IsStackSane sane_machine = true
  /\ ApplyFramePatches music_off_cfg all_applied_patches sane_machine
     = Some (true,
             after_frame sane_machine
               (patch_writes
                  (filter (fun p => applied music_off_cfg p = true) all_applied_patches))).
Proof.
  assert (Hsane : IsStackSane sane_machine = true) by (vm_compute; reflexivity).
  assert (Hdr : MSR_DR sane_machine = true) by reflexivity.
  assert (Hir : MSR_IR sane_machine = true) by reflexivity.
  split; [exact Hdr |]. split; [exact Hir |]. split; [exact Hsane |].
  apply (ApplyFramePatches_applies music_off_cfg all_applied_patches sane_machine
           Hdr Hir Hsane).
  - unfold all_applied_patches.
    apply Forall_cons; split; [left; reflexivity |].
    apply Forall_cons; split; [right; split; reflexivity |].
    apply Forall_cons; split; [left; reflexivity |].
    apply Forall_nil; exact I.
  - unfold all_applied_patches, music_off_patch, u32_range.
    repeat (apply Forall_cons; split); try (apply Forall_nil; exact I);
      cbn [entries value]; lia.
Defined.

(** The host calls of that frame, in order; values are truncated to the
    width of their entry. *)
Example recorded_calls_of_applied_patches :
  outcome (ApplyFramePatches music_off_cfg all_applied_patches sane_machine)
  = Some (true, [ Write_U32 0 0x80001234; Write_U8 255 0x80001234;
                  Write_U16 1 0x80001240; Write_U8 7 0x80001244;
                  RunCodeHandler; RunAllActive ]).
Proof. vm_compute. reflexivity. Qed.

(** *** The loader, block by block *)

(** The blocks of the override section: the line before the first marker
    belongs to no block; the empty line and the malformed line of the
    block give no entry. *)
Example split_blocks_enabling_ini :
  split_blocks (GetLines enabling_ini "OnFrame")
  = (["3:byte:1"], [("Music", [""; "2147488324=byte:7"; "bad line"])])
  /\ block_entries [""; "2147488324=byte:7"; "bad line"]
     = [mkPatchEntry PATCH_8BIT 0x80001244 7].
Proof. split; vm_compute; reflexivity. Qed.

Lemma enabled_patches_loaded :
  LoadPatchSection "OnFrame" [] default_ini enabling_ini = [] ++ enabled_patches.
Proof. vm_compute. reflexivity. Qed.

(** The user's [Music] patch stems from the marker of the override source. *)
Lemma LoadPatchSection_patch_origin_witness :
  let p := mkPatch "Music" [mkPatchEntry PATCH_8BIT 0x80001244 7] true true in
  p ∈ enabled_patches
  /\ name p <> ""
  /\ String "$" (name p) ∈ GetLines (if user_defined p then enabling_ini else default_ini)
                                   "OnFrame".
Proof.
  assert (Hp : mkPatch "Music" [mkPatchEntry PATCH_8BIT 0x80001244 7] true true
               ∈ enabled_patches) by (unfold enabled_patches; repeat constructor).
  split; [exact Hp |].
  exact (LoadPatchSection_patch_origin "OnFrame" [] enabled_patches default_ini
           enabling_ini enabled_patches_loaded _ Hp).
Defined.

(** Its entry stems from the line [2147488324=byte:7]. *)
Lemma LoadPatchSection_entry_origin_witness :
  let p := mkPatch "Music" [mkPatchEntry PATCH_8BIT 0x80001244 7] true true in
  let e := mkPatchEntry PATCH_8BIT 0x80001244 7 in
  p ∈ enabled_patches /\ e ∈ entries p
  /\ type e <> PatchType_3
  /\ exists line,
       line ∈ GetLines (if user_defined p then enabling_ini else default_ini) "OnFrame"
       /\ entry_line_fields line e.
Proof.
  assert (Hp : mkPatch "Music" [mkPatchEntry PATCH_8BIT 0x80001244 7] true true
               ∈ enabled_patches) by (unfold enabled_patches; repeat constructor).
  assert (He : mkPatchEntry PATCH_8BIT 0x80001244 7
               ∈ entries (mkPatch "Music" [mkPatchEntry PATCH_8BIT 0x80001244 7]
                                  true true)) by (cbn; repeat constructor).
  split; [exact Hp |]. split; [exact He |].
  exact (LoadPatchSection_entry_origin "OnFrame" [] enabled_patches default_ini
           enabling_ini enabled_patches_loaded _ _ Hp He).
Defined.

Lemma LoadPatchSection_default_then_user_witness :
  exists from_default from_user : list Patch,
    enabled_patches = from_default ++ from_user
    /\ Forall (fun p => user_defined p = false
                        /\ String "$" (name p) ∈ GetLines default_ini "OnFrame")
              from_default
    /\ Forall (fun p => user_defined p = true
                        /\ String "$" (name p) ∈ GetLines enabling_ini "OnFrame")
              from_user.
Proof.
  exact (LoadPatchSection_default_then_user "OnFrame" [] enabled_patches default_ini
           enabling_ini enabled_patches_loaded).
Defined.

Lemma LoadPatchSection_names_in_order_witness :
  map name enabled_patches
    `sublist_of` (omap marker_name (GetLines default_ini "OnFrame")
                  ++ omap marker_name (GetLines enabling_ini "OnFrame"))
  /\ (length enabled_patches
      <= length (omap marker_name (GetLines default_ini "OnFrame"))
         + length (omap marker_name (GetLines enabling_ini "OnFrame")))%nat.
Proof.
  exact (LoadPatchSection_names_in_order "OnFrame" [] enabled_patches default_ini
           enabling_ini enabled_patches_loaded).
Defined.

(** *** The speedhack table as a whole *)

(** The decimal parser of the fixtures yields 32-bit values. *)
Lemma parse_digits_nonneg (s : string) :
  forall acc v : Z, 0 <= acc -> parse_digits acc s = Some v -> 0 <= v.
Proof.
  induction s as [| c s IH]; intros acc v Hacc; cbn [parse_digits].
  - intros [= <-]. exact Hacc.
  - unfold digit_of.
    destruct ((48 <=? Z.of_nat (nat_of_ascii c)) && (Z.of_nat (nat_of_ascii c) <=? 57))
      eqn:Hdigit; cbn; [| discriminate].
    apply andb_true_iff in Hdigit as [Hlo _]. apply Z.leb_le in Hlo.
    apply IH. lia.
Qed.

Lemma decimal_TryParse_u32 : TryParse_u32.
Proof.
  intros s v. cbn [TryParse decimal_StringUtil]. unfold parse_decimal.
  destruct s as [| c s]; [discriminate |].
  destruct (parse_digits 0 (String c s)) as [v' |] eqn:Hdigits; cbn; [| discriminate].
  destruct (Z.ltb_spec v' (2 ^ 32)); [| discriminate].
  intros [= <-]. split; [| assumption].
  apply (parse_digits_nonneg _ 0 v' (Z.le_refl 0) Hdigits).
Qed.

Lemma LoadSpeedhacks_holds_iff_configured_witness :
  is_Some (LoadSpeedhacks "Speedhacks" user_ini ∅ !! 32)
  /\ exists key cycles,
       key ∈ GetKeys user_ini "Speedhacks"
       /\ key_configures "Speedhacks" user_ini key 32 cycles
       /\ -1 = cast_int cycles.
Proof.
  destruct (LoadSpeedhacks_holds_iff_configured "Speedhacks" user_ini 32)
    as [[_ Hconfigured] Horigin].
  assert (Hsome : is_Some (LoadSpeedhacks "Speedhacks" user_ini ∅ !! 32)).
  { apply Hconfigured. exists "32", 4294967295.
    split; [cbn; repeat constructor |].
    split; [vm_compute; discriminate |]. split; reflexivity. }
  split; [exact Hsome |].
  apply Horigin. vm_compute. reflexivity.
Defined.

Lemma GetSpeedhackCycles_int_range_witness :
  - 2 ^ 31 <= GetSpeedhackCycles (LoadSpeedhacks "Speedhacks" user_ini ∅) 32 < 2 ^ 31
  /\ (is_Some (LoadSpeedhacks "Speedhacks" user_ini ∅ !! 32) -> u32_range 32).
Proof.
  exact (GetSpeedhackCycles_int_range "Speedhacks" user_ini 32 decimal_TryParse_u32).
Defined.

Lemma GetSpeedhackCycles_reads_back_witness :
  cast_u32 (GetSpeedhackCycles (LoadSpeedhacks "Speedhacks" user_ini ∅) 32) = 4294967295
  /\ (4294967295 < 2 ^ 31 ->
      GetSpeedhackCycles (LoadSpeedhacks "Speedhacks" user_ini ∅) 32 = 4294967295).
Proof.
  apply (GetSpeedhackCycles_reads_back "Speedhacks" user_ini ∅
           ["16"; "x"; "016"] ["48"] "32" 32 4294967295).
  - reflexivity.
  - split; [vm_compute; discriminate |]. split; reflexivity.
  - intros k Hk. apply elem_of_cons in Hk as [-> | Hk]; [vm_compute; discriminate |].
    apply elem_of_nil in Hk. contradiction.
  - unfold u32_range. lia.
Defined.

(** *** Frames after loading *)


Lemma Shutdown_clears_witness :
  (forall addr : Z,
      GetSpeedhackCycles
        (speedHacks (Shutdown (LoadPatches enabling_cfg Engine_initial))) addr = 0)
  /\ ApplyFramePatches enabling_cfg
       (onFrame (Shutdown (LoadPatches enabling_cfg Engine_initial))) sane_machine
     = Some (true, ActionReplay_RunAllActive (Gecko_RunCodeHandler sane_machine)).
Proof.
  assert (Hsane : IsStackSane sane_machine = true) by (vm_compute; reflexivity).
  assert (Hdr : MSR_DR sane_machine = true) by reflexivity.
  assert (Hir : MSR_IR sane_machine = true) by reflexivity.
  exact (Shutdown_clears enabling_cfg (LoadPatches enabling_cfg Engine_initial)
           sane_machine Hdr Hir Hsane).
Defined.

Lemma loaded_patches_written_witness :
  let loaded := onFrame (LoadPatches enabling_cfg Engine_initial) in
  ApplyFramePatches enabling_cfg loaded sane_machine
  = Some (true, after_frame sane_machine (patch_writes loaded))
  /\ length (patch_writes loaded) = length (loaded ≫= entries).
Proof.
  assert (Hsane : IsStackSane sane_machine = true) by (vm_compute; reflexivity).
  assert (Hdr : MSR_DR sane_machine = true) by reflexivity.
  assert (Hir : MSR_IR sane_machine = true) by reflexivity.
  apply (loaded_patches_written enabling_cfg sane_machine decimal_TryParse_u32
           Hdr Hir Hsane).
  intros n Hn. left.
  cbn in Hn. cbn.
  repeat (rewrite elem_of_cons in Hn). rewrite elem_of_nil in Hn.
  repeat (rewrite elem_of_cons).
  destruct Hn as [Hn | Hn];
    repeat (destruct Hn as [Hn | Hn]); try discriminate Hn; try contradiction;
    injection Hn as ->; auto.
Defined.

(** The host calls of the frame after loading [enabling_cfg]. *)
Example loaded_patches_calls :
  outcome (ApplyFramePatches enabling_cfg
             (onFrame (LoadPatches enabling_cfg Engine_initial)) sane_machine)
  = Some (true, [ Write_U32 1 0x80001234; Write_U8 255 0x80001238;
                  Write_U16 1 0x80001240; Write_U8 7 0x80001244;
                  RunCodeHandler; RunAllActive ]).
Proof. vm_compute. reflexivity. Qed.

(** *** String helpers *)

Lemma replace_first_equals_first_witness :
  replace_first_equals "12=byte=7" = "12:byte=7"
  /\ replace_first_equals "12:byte:7" = "12:byte:7".
Proof.
  destruct (replace_first_equals_first "12" "byte=7" "12:byte:7") as [Hfirst Hnone].
  - intros c [<- | [<- | []]]; discriminate.
  - split; [exact Hfirst |]. apply Hnone.
    intros c Hc. cbn in Hc.
    repeat (destruct Hc as [<- | Hc]; [discriminate |]). contradiction.
Defined.

Lemma find_index_first_witness :
  PatchTypeStrings !! find_index PatchTypeStrings "word" = Some "word"
  /\ find_index PatchTypeStrings "Byte" = length PatchTypeStrings
  /\ PatchType_of_index (find_index PatchTypeStrings "Byte") = PatchType_3.
Proof.
  destruct (find_index_first PatchTypeStrings "word") as (_ & _ & Hat & _).
  destruct (find_index_first PatchTypeStrings "Byte") as (_ & _ & _ & Hnone & Htype).
  assert (Hnot : "Byte" ∉ PatchTypeStrings).
  { unfold PatchTypeStrings. intros Hin.
    repeat (apply elem_of_cons in Hin as [Hin | Hin]; [discriminate Hin |]).
    apply elem_of_nil in Hin. contradiction. }
  split; [apply Hat; unfold PatchTypeStrings; repeat constructor |].
  split; [apply Hnone; exact Hnot | apply Htype; exact Hnot].
Defined.

Lemma collect_enabledNames_lines_witness :
  collect_enabledNames ["$Music"; "Widescreen"; "$Music"; ""]
  = collect_enabledNames ["$Music"].
Proof.
  apply collect_enabledNames_lines. intros n. split; intros Hn.
  - repeat (apply elem_of_cons in Hn as [Hn | Hn];
            [try discriminate Hn; injection Hn as ->; repeat constructor |]).
    apply elem_of_nil in Hn. contradiction.
  - apply elem_of_cons in Hn as [Hn | Hn];
      [injection Hn as ->; repeat constructor | apply elem_of_nil in Hn; contradiction].
Defined.

(** *** Game names *)

Import GameFixture.

Example BuildGameName_games :
  map BuildGameName games
  = [ "Super Smash Bros. Brawl (RSBE01, Revision 2)";
      "Homebrew";
      "Metroid Disc 2 (GM8E01)";
      "Super Smash Bros. Brawl (RSBE01, Revision 2)" ].
Proof. vm_compute. reflexivity. Qed.

Lemma BuildGameName_starts_with_name_witness :
  String.prefix "Homebrew" (BuildGameName homebrew) = true
  /\ BuildGameName homebrew = "Homebrew".
Proof.
  destruct (BuildGameName_starts_with_name homebrew) as [Hprefix [_ Hplain]].
  split; [exact Hprefix |]. apply Hplain. vm_compute. reflexivity.
Defined.

Lemma FindGame_first_match_witness :
  FindGame games "Super Smash Bros. Brawl (RSBE01, Revision 2)" = "/games/brawl.iso"
  /\ FindGame games "Metroid Disc 2" = "".
Proof.
  destruct (FindGame_first_match games "Super Smash Bros. Brawl (RSBE01, Revision 2)")
    as [Hfirst _].
  destruct (FindGame_first_match games "Metroid Disc 2") as (_ & Hnone & _).
  split.
  - apply (Hfirst [] brawl [homebrew; second_disc; brawl_copy]).
    + reflexivity.
    + vm_compute. reflexivity.
    + intros g Hg. apply elem_of_nil in Hg. contradiction.
  - apply Hnone. intros g Hg. unfold games in Hg.
    repeat (apply elem_of_cons in Hg as [-> | Hg]; [vm_compute; discriminate |]).
    apply elem_of_nil in Hg. contradiction.
Defined.

Lemma FillWithGameNames_FindGame_witness :
  exists item,
    FillWithGameNames ["(none)"] games !! (length ["(none)"] + 2)%nat = Some item
    /\ length (FillWithGameNames ["(none)"] games)
       = (length ["(none)"] + length games)%nat
    /\ FindGame games item = GetFileName second_disc.
Proof.
  apply (FillWithGameNames_FindGame ["(none)"] games 2 second_disc).
  - reflexivity.
  - intros [| [| j]] g Hj; cbn; try lia; intros [= <-]; vm_compute; discriminate.
Defined.
